(** * lilcom: the LPC stream (lilcom/lpc_stream.h)

    A shallow embedding of [LpcPrediction], [LpcStream] and
    [ReverseLpcStream].  The three base classes the header inherits from
    ([int_math::ToeplitzLpcEstimator], [TruncatedIntStream],
    [ReverseTruncatedIntStream]) live in lpc_math.h and int_stream.h; they
    are interfaces here, and every statement is made for an arbitrary
    implementation of them. *)

From stdpp Require Import base list numbers.

Local Open Scope Z_scope.

(** ** Fixed-width integers *)

(** Conversion of an integer to a signed two's complement type of [bits]
    bits. *)
Definition wrap (bits z : Z) : Z :=
  (z + 2 ^ (bits - 1)) `mod` 2 ^ bits - 2 ^ (bits - 1).

Definition int16_of : Z -> Z := wrap 16.
Definition int32_of : Z -> Z := wrap 32.

Definition is_int16 (z : Z) : Prop := -32768 <= z <= 32767.
Definition is_int32 (z : Z) : Prop := -2147483648 <= z <= 2147483647.

(** ** Arrays

    [std::vector] contents are lists; an index is a C++ [int].  Reads and
    writes outside the vector are undefined in C++; the model reads 0 and
    drops the write there, and [copy_context_in_bounds] and
    [AdvanceLpcState_in_bounds] below show that a well-formed state never
    reaches that case. *)
Definition load (a : list Z) (i : Z) : Z :=
  if 0 <=? i then default 0 (a !! Z.to_nat i) else 0.

Definition store (a : list Z) (i v : Z) : list Z :=
  if 0 <=? i then <[Z.to_nat i := v]> a else a.

(** A pointer into an [int16_t] array: the array and the index of the
    pointed element. *)
Definition pointer : Type := list Z * Z.

(** ** The collaborators *)

(** [int_math::ToeplitzLpcEstimator] together with [int_math::LpcConfig],
    [int_math::LpcCoeffs] and [int_math::compute_lpc_prediction], as far as
    lpc_stream.h uses them.  [EstimatorStats] is the estimator's own mutable
    state; [AcceptBlock] receives [buffer_start_] and [&(residual_[0])]. *)
Class ToeplitzLpcEstimator := {
  LpcConfig : Type;
  lpc_order : LpcConfig -> Z;
  block_size : LpcConfig -> Z;
  LpcCoeffs : Type;
  EstimatorStats : Type;
  ToeplitzLpcEstimator_new : LpcConfig -> EstimatorStats;
  AcceptBlock : EstimatorStats -> pointer -> list Z -> EstimatorStats;
  GetLpcCoeffs : EstimatorStats -> LpcCoeffs;
  compute_lpc_prediction : pointer -> LpcCoeffs -> Z
}.

(** [TruncatedIntStream] and [ReverseTruncatedIntStream].  [WriteLimited s
    residual prediction] gives the new stream and the two out-parameters
    [(decompressed_value, decompressed_residual)]; [Code] is [Flush()]
    followed by [Code()]; [ReverseTruncatedIntStream_Read] gives [None] for
    [false] and [Some residual] for [true]. *)
Class ResidualCoder := {
  TruncationConfig : Type;
  TruncatedIntStream : Type;
  TruncatedIntStream_new : TruncationConfig -> TruncatedIntStream;
  WriteLimited : TruncatedIntStream -> Z -> Z -> TruncatedIntStream * (Z * Z);
  CodeBytes : Type;
  Code : TruncatedIntStream -> CodeBytes;
  ReverseTruncatedIntStream : Type;
  ReverseTruncatedIntStream_new :
    TruncationConfig -> CodeBytes -> ReverseTruncatedIntStream;
  ReverseTruncatedIntStream_Read :
    ReverseTruncatedIntStream -> ReverseTruncatedIntStream * option Z
}.

(** ** class LpcPrediction *)

Section LpcPrediction.
Context `{E : ToeplitzLpcEstimator}.

(** The base-class subobject is the pair of [Config_] (what [Config()]
    returns: the configuration given to the constructor) and [estimator_];
    [buffer_start_] is not stored, it is [buffer_storage_] at offset
    [lpc_order]. *)
Record LpcPrediction := {
  Config_ : LpcConfig;
  estimator_ : EstimatorStats;
  t_ : Z;
  buffer_storage_ : list Z;
  residual_ : list Z
}.

Definition buffer_start_ (p : LpcPrediction) : Z := lpc_order (Config_ p).

Definition LpcPrediction_new (lpc_config : LpcConfig) : LpcPrediction :=
  {| Config_ := lpc_config;
     estimator_ := ToeplitzLpcEstimator_new lpc_config;
     t_ := 0;
     buffer_storage_ :=
       replicate (Z.to_nat (lpc_order lpc_config + block_size lpc_config)) 0;
     residual_ := replicate (Z.to_nat (block_size lpc_config)) 0 |}.

Definition t_mod_ (p : LpcPrediction) : Z :=
  Z.rem (t_ p) (block_size (Config_ p)).

Definition GetPrediction (p : LpcPrediction) : Z :=
  let buffer_pos := buffer_start_ p + t_mod_ p in
  int16_of (compute_lpc_prediction (buffer_storage_ p, buffer_pos)
              (GetLpcCoeffs (estimator_ p))).

(** The condition of the [assert] at the head of [AdvanceLpcState]. *)
Definition AdvanceLpcState_assert (p : LpcPrediction) (value residual : Z)
  : bool :=
  (2 <? t_mod_ p) || (residual =? value - GetPrediction p).

(** The loop [for (int i = -lpc_order; i < 0; i++)], with [n] iterations
    left and the loop variable at [i]. *)
Fixpoint copy_context (start bsize : Z) (n : nat) (i : Z) (buf : list Z)
  : list Z :=
  match n with
  | O => buf
  | S n' =>
      copy_context start bsize n' (i + 1)
        (store buf (start + i) (load buf (start + bsize + i)))
  end.

(** The body of [if (t_mod == 0 && t_ != 0)]. *)
Definition block_boundary (p : LpcPrediction) : LpcPrediction :=
  let order := lpc_order (Config_ p) in
  let buf := copy_context (buffer_start_ p) (block_size (Config_ p))
               (Z.to_nat order) (- order) (buffer_storage_ p) in
  {| Config_ := Config_ p;
     estimator_ := AcceptBlock (estimator_ p) (buf, buffer_start_ p)
                     (residual_ p);
     t_ := t_ p;
     buffer_storage_ := buf;
     residual_ := residual_ p |}.

(** [AdvanceLpcState] as compiled with NDEBUG; [t_++] is written with the
    wrap-around of a 32-bit [int]. *)
Definition AdvanceLpcState (p : LpcPrediction) (value residual : Z)
  : LpcPrediction :=
  let t_mod := t_mod_ p in
  let p1 := if (t_mod =? 0) && negb (t_ p =? 0) then block_boundary p
            else p in
  {| Config_ := Config_ p1;
     estimator_ := estimator_ p1;
     t_ := int32_of (t_ p1 + 1);
     buffer_storage_ :=
       store (buffer_storage_ p1) (buffer_start_ p1 + t_mod) value;
     residual_ := store (residual_ p1) t_mod residual |}.

(** [order >= 0] and [block_size > 0], as every configuration has them,
    and [lpc_order + block_size], which the constructor computes in
    [int], does not overflow. *)
Definition LpcConfig_valid (c : LpcConfig) : Prop :=
  0 <= lpc_order c /\ 0 < block_size c /\
  lpc_order c + block_size c <= 2147483647.

(** The shape of a state that the constructor followed by advances can be
    in, as long as [t_++] has not overflowed. *)
Definition wf (p : LpcPrediction) : Prop :=
  LpcConfig_valid (Config_ p) /\
  0 <= t_ p <= 2147483647 /\
  Z.of_nat (length (buffer_storage_ p))
    = lpc_order (Config_ p) + block_size (Config_ p) /\
  Z.of_nat (length (residual_ p)) = block_size (Config_ p).

(** The left-context slots and the slots of the current block. *)
Definition left_context (p : LpcPrediction) : list Z :=
  take (Z.to_nat (lpc_order (Config_ p))) (buffer_storage_ p).

Definition current_block (p : LpcPrediction) : list Z :=
  drop (Z.to_nat (lpc_order (Config_ p))) (buffer_storage_ p).

(** The state after feeding a list of (value, residual) pairs. *)
Definition advance_all (p : LpcPrediction) (vr : list (Z * Z))
  : LpcPrediction :=
  fold_left (fun q x => AdvanceLpcState q x.1 x.2) vr p.
End LpcPrediction.

(** ** class LpcStream and class ReverseLpcStream *)

(** What [Write] prints on [std::cout]. *)
Inductive diagnostic :=
| residual_mismatch (residual decompressed : Z)
| value_mismatch (value decompressed : Z).

Section Streams.
Context `{E : ToeplitzLpcEstimator} `{C : ResidualCoder}.

Record LpcStream := {
  enc_stream : TruncatedIntStream;
  enc_lpc : LpcPrediction
}.

Definition LpcStream_new (truncation_config : TruncationConfig)
    (lpc_config : LpcConfig) : LpcStream :=
  {| enc_stream := TruncatedIntStream_new truncation_config;
     enc_lpc := LpcPrediction_new lpc_config |}.

(** What one call of [Write] leaves behind: the stream, the content of
    [*decompressed_value_out] and the lines printed. *)
Record write_result := {
  w_stream : LpcStream;
  w_out : option Z;
  w_cout : list diagnostic
}.

(** [decompressed_value_out] is [None] for a NULL pointer and [Some old]
    for a pointer to a cell holding [old]. *)
Definition Write (s : LpcStream) (value : Z)
    (decompressed_value_out : option Z) : write_result :=
  let prediction := GetPrediction (enc_lpc s) in
  let residual := int32_of (value - prediction) in
  let '(stream', (decompressed_value, decompressed_residual)) :=
    WriteLimited (enc_stream s) residual prediction in
  {| w_stream :=
       {| enc_stream := stream';
          enc_lpc := AdvanceLpcState (enc_lpc s) decompressed_value
                       decompressed_residual |};
     w_out := match decompressed_value_out with
              | Some _ => Some decompressed_value
              | None => None
              end;
     w_cout :=
       (if decompressed_residual =? residual then []
        else [residual_mismatch residual decompressed_residual]) ++
       (if decompressed_value =? value then []
        else [value_mismatch value decompressed_value]) |}.

Record ReverseLpcStream := {
  dec_stream : ReverseTruncatedIntStream;
  dec_lpc : LpcPrediction
}.

Definition ReverseLpcStream_new (truncation_config : TruncationConfig)
    (lpc_config : LpcConfig) (code : CodeBytes) : ReverseLpcStream :=
  {| dec_stream := ReverseTruncatedIntStream_new truncation_config code;
     dec_lpc := LpcPrediction_new lpc_config |}.

(** What one call of [Read] leaves behind: the stream, the [bool]
    returned and the content of [*value]. *)
Record read_result := {
  r_stream : ReverseLpcStream;
  r_ok : bool;
  r_value : Z
}.

(** [value] is the content of the caller's cell before the call.  The
    addition [prediction + residual] is made in 32 bits and is written
    with its wrap-around; passing [next_value] as an [int16_t] converts
    it. *)
Definition Read (s : ReverseLpcStream) (value : Z) : read_result :=
  match ReverseTruncatedIntStream_Read (dec_stream s) with
  | (stream', None) =>
      {| r_stream := {| dec_stream := stream'; dec_lpc := dec_lpc s |};
         r_ok := false; r_value := value |}
  | (stream', Some residual) =>
      let prediction := GetPrediction (dec_lpc s) in
      let next_value := int32_of (prediction + residual) in
      if negb (next_value =? int16_of next_value) then
        {| r_stream := {| dec_stream := stream'; dec_lpc := dec_lpc s |};
           r_ok := false; r_value := value |}
      else
        {| r_stream :=
             {| dec_stream := stream';
                dec_lpc := AdvanceLpcState (dec_lpc s)
                             (int16_of next_value) residual |};
           r_ok := true; r_value := int16_of next_value |}
  end.

(** The encoder's caller: one [Write] per sample, collecting what each
    call puts in [*decompressed_value_out]. *)
Fixpoint write_all (s : LpcStream) (samples : list Z)
  : LpcStream * list Z :=
  match samples with
  | [] => (s, [])
  | v :: rest =>
      let w := Write s v (Some 0) in
      let '(s', outs) := write_all (w_stream w) rest in
      (s', default 0 (w_out w) :: outs)
  end.

(** The decoder's caller: [Read] until it returns [false], at most
    [fuel] times.  The flag tells that a [false] was met. *)
Fixpoint read_all (fuel : nat) (s : ReverseLpcStream)
  : ReverseLpcStream * list Z * bool :=
  match fuel with
  | O => (s, [], false)
  | S fuel' =>
      let r := Read s 0 in
      if r_ok r then
        let '(s', vals, stopped) := read_all fuel' (r_stream r) in
        (s', r_value r :: vals, stopped)
      else (r_stream r, [], true)
  end.

(** [n] calls of [Read], stopping at the first [false]. *)
Fixpoint read_n (n : nat) (s : ReverseLpcStream)
  : ReverseLpcStream * list Z :=
  match n with
  | O => (s, [])
  | S n' =>
      let r := Read s 0 in
      if r_ok r then
        let '(s', vals) := read_n n' (r_stream r) in (s', r_value r :: vals)
      else (r_stream r, [])
  end.

(** The value of the [assert] in the call of [AdvanceLpcState] that
    [Write] makes. *)
Definition Write_assert (s : LpcStream) (value : Z) : bool :=
  let prediction := GetPrediction (enc_lpc s) in
  let residual := int32_of (value - prediction) in
  let '(_, (decompressed_value, decompressed_residual)) :=
    WriteLimited (enc_stream s) residual prediction in
  AdvanceLpcState_assert (enc_lpc s) decompressed_value
    decompressed_residual.

(** The same for [Read]; [true] when [Read] returns before the call. *)
Definition Read_assert (s : ReverseLpcStream) : bool :=
  match ReverseTruncatedIntStream_Read (dec_stream s) with
  | (_, None) => true
  | (_, Some residual) =>
      let prediction := GetPrediction (dec_lpc s) in
      let next_value := int32_of (prediction + residual) in
      if negb (next_value =? int16_of next_value) then true
      else AdvanceLpcState_assert (dec_lpc s) (int16_of next_value)
             residual
  end.

(** The two ways [Read] can return [false]. *)
Definition exhausted (s : ReverseLpcStream) : Prop :=
  (ReverseTruncatedIntStream_Read (dec_stream s)).2 = None.

Definition out_of_range (s : ReverseLpcStream) : Prop :=
  exists residual,
    (ReverseTruncatedIntStream_Read (dec_stream s)).2 = Some residual /\
    is_int32 residual /\
    ~ is_int16 (GetPrediction (dec_lpc s) + residual).

(** What the caller of [Read] has in hand after the call. *)
Definition observed (r : read_result) : bool * Z := (r_ok r, r_value r).

(** *** The contract of the residual coder *)

(** A run of [WriteLimited] over (residual, prediction) requests, with
    the (decompressed_value, decompressed_residual) of each. *)
Fixpoint WriteLimited_all (s : TruncatedIntStream)
    (requests : list (Z * Z)) : TruncatedIntStream * list (Z * Z) :=
  match requests with
  | [] => (s, [])
  | rq :: rest =>
      let '(s1, cm) := WriteLimited s rq.1 rq.2 in
      let '(s2, cms) := WriteLimited_all s1 rest in
      (s2, cm :: cms)
  end.

(** The requests [Write] makes: the side information is an [int16_t]
    and residual plus side information is the [int16_t] sample. *)
Definition valid_request (rq : Z * Z) : Prop :=
  is_int16 rq.2 /\ is_int16 (rq.2 + rq.1).

(** The stream after [n] successful reads of residuals. *)
Fixpoint after_reads (d : ReverseTruncatedIntStream) (n : nat)
  : ReverseTruncatedIntStream :=
  match n with
  | O => d
  | S n' => after_reads (ReverseTruncatedIntStream_Read d).1 n'
  end.

(** The next residuals read from [d] are [rs], in this order. *)
Fixpoint reads_prefix (d : ReverseTruncatedIntStream) (rs : list Z)
  : Prop :=
  match rs with
  | [] => True
  | r :: rs' =>
      (ReverseTruncatedIntStream_Read d).2 = Some r /\
      reads_prefix (ReverseTruncatedIntStream_Read d).1 rs'
  end.

(** [d] holds exactly [rs]: they are read back and then the stream is at
    its end. *)
Definition reads_exactly (d : ReverseTruncatedIntStream) (rs : list Z)
  : Prop :=
  reads_prefix d rs /\
  (ReverseTruncatedIntStream_Read (after_reads d (length rs))).2 = None.

(** One commit is what a decoder recovers: the committed value is the
    side information plus the committed residual, and is a sample. *)
Definition commit_consistent (rq cm : Z * Z) : Prop :=
  cm.1 = rq.2 + cm.2 /\ is_int16 cm.1.

(** Modelled from the spec: [TruncatedIntStream::WriteLimited] is in
    int_stream.h, not in lpc_stream.h.  The committed pair is "exactly
    what a correct decoder will later recover" (4.2) and is "of the
    sample's native width" (6). *)
Definition coder_consistent (tc : TruncationConfig) : Prop :=
  forall requests, Forall valid_request requests ->
    Forall2 commit_consistent requests
      (WriteLimited_all (TruncatedIntStream_new tc) requests).2.

(** Modelled from the spec: [TruncatedIntStream::WriteLimited] is in
    int_stream.h.  "The Residual Coder is configured to never truncate"
    (8): every commit is the request itself. *)
Definition coder_never_truncates (tc : TruncationConfig) : Prop :=
  forall requests, Forall valid_request requests ->
    (WriteLimited_all (TruncatedIntStream_new tc) requests).2
    = (fun rq => (rq.2 + rq.1, rq.1)) <$> requests.

(** Modelled from the spec: [ReverseTruncatedIntStream::Read] is in
    int_stream.h.  "Decoder-side coder must be a pure inverse: given the
    same configuration and the same emitted codes in order, it must
    reproduce exactly the same residual sequence the encoder committed
    to" (6), and then "signal end-of-stream" (4.3). *)
Definition decoder_inverts (tc : TruncationConfig) : Prop :=
  forall requests, Forall valid_request requests ->
    reads_exactly
      (ReverseTruncatedIntStream_new tc
         (Code (WriteLimited_all (TruncatedIntStream_new tc) requests).1))
      (WriteLimited_all (TruncatedIntStream_new tc) requests).2.*2.

(** The (residual, prediction) requests and the commits of the run
    [write_all s samples]. *)
Fixpoint write_requests (s : LpcStream) (samples : list Z)
  : list (Z * Z) :=
  match samples with
  | [] => []
  | v :: rest =>
      let prediction := GetPrediction (enc_lpc s) in
      (int32_of (v - prediction), prediction)
        :: write_requests (w_stream (Write s v (Some 0))) rest
  end.

Fixpoint write_commits (s : LpcStream) (samples : list Z)
  : list (Z * Z) :=
  match samples with
  | [] => []
  | v :: rest =>
      let prediction := GetPrediction (enc_lpc s) in
      (WriteLimited (enc_stream s) (int32_of (v - prediction))
         prediction).2
        :: write_commits (w_stream (Write s v (Some 0))) rest
  end.
End Streams.

(** ** A small implementation of the collaborators

    An order-1 sign estimator and a quantising coder whose code is the list
    of committed residuals.  They serve to run the model on concrete
    streams. *)
Module Toy.

Record config := { order : Z; bsize : Z }.

(** Sum of [f j] for [j] in [lo, lo + n). *)
Fixpoint sum_from (f : Z -> Z) (lo : Z) (n : nat) : Z :=
  match n with
  | O => 0
  | S n' => f lo + sum_from f (lo + 1) n'
  end.

(** The first coefficient is the sign of the lag-1 correlation of the
    block, the others are zero. *)
Definition accept_block (st : config * list Z) (signal : pointer)
    (residual : list Z) : config * list Z :=
  let c := st.1 in
  let corr :=
    sum_from (fun j => load signal.1 (signal.2 + j)
                       * load signal.1 (signal.2 + j - 1))
      0 (Z.to_nat (bsize c)) in
  (c, take (Z.to_nat (order c))
        (Z.sgn corr :: replicate (Z.to_nat (order c)) 0)).

(** coeffs[0] * cur[-1] + coeffs[1] * cur[-2] + ... *)
Fixpoint dot (cur : pointer) (i : Z) (coeffs : list Z) : Z :=
  match coeffs with
  | [] => 0
  | a :: rest => a * load cur.1 (cur.2 - 1 - i) + dot cur (i + 1) rest
  end.

Definition estimator : ToeplitzLpcEstimator :=
  {| LpcConfig := config;
     lpc_order := order;
     block_size := bsize;
     LpcCoeffs := list Z;
     EstimatorStats := config * list Z;
     ToeplitzLpcEstimator_new c := (c, replicate (Z.to_nat (order c)) 0);
     AcceptBlock := accept_block;
     GetLpcCoeffs st := st.2;
     compute_lpc_prediction cur coeffs := dot cur 0 coeffs |}.

(** The truncation configuration is a quantisation step; a step of 1 or
    less never truncates.  A commit that would leave the int16 range
    falls back to the exact residual. *)
Definition commit (q residual prediction : Z) : Z * Z :=
  let r0 := if q <=? 1 then residual else q * (residual `quot` q) in
  let r := if (-32768 <=? prediction + r0) && (prediction + r0 <=? 32767)
           then r0 else residual in
  (prediction + r, r).

Definition write_limited (s : Z * list Z) (residual prediction : Z)
  : (Z * list Z) * (Z * Z) :=
  ((s.1, s.2 ++ [(commit s.1 residual prediction).2]),
   commit s.1 residual prediction).

Definition reverse_read (d : list Z) : list Z * option Z :=
  match d with
  | [] => ([], None)
  | r :: rest => (rest, Some r)
  end.

Definition coder : ResidualCoder :=
  {| TruncationConfig := Z;
     TruncatedIntStream := Z * list Z;
     TruncatedIntStream_new q := (q, []);
     WriteLimited := write_limited;
     CodeBytes := list Z;
     Code s := s.2;
     ReverseTruncatedIntStream := list Z;
     ReverseTruncatedIntStream_new _ code := code;
     ReverseTruncatedIntStream_Read := reverse_read |}.

Definition cfg : config := {| order := 2; bsize := 4 |}.
Definition samples : list Z := [10; 20; 15; 5; 30; 25; 10; 0].

Definition encoder (q : Z) : @LpcStream estimator coder :=
  @LpcStream_new estimator coder q cfg.

Definition decoder (q : Z) (code : list Z)
  : @ReverseLpcStream estimator coder :=
  @ReverseLpcStream_new estimator coder q cfg code.

(** The code of [samples] under step [q]. *)
Definition code_of (q : Z) (l : list Z) : list Z :=
  @Code coder (enc_stream (@write_all estimator coder (encoder q) l).1).
End Toy.

(** ** Accesses with their bounds

    The same accesses as [load] and [store], giving [None] where the C++
    access is outside the vector. *)
Definition load_checked (a : list Z) (i : Z) : option Z :=
  if 0 <=? i then a !! Z.to_nat i else None.

Definition store_checked (a : list Z) (i v : Z) : option (list Z) :=
  if (0 <=? i) && (i <? Z.of_nat (length a))
  then Some (<[Z.to_nat i := v]> a) else None.

Section Defined.
Context `{E : ToeplitzLpcEstimator}.

(** The copy loop of [AdvanceLpcState] with checked accesses. *)
Fixpoint copy_context_checked (start bsize : Z) (n : nat) (i : Z)
    (buf : list Z) : option (list Z) :=
  match n with
  | O => Some buf
  | S n' =>
      x ← load_checked buf (start + bsize + i);
      buf' ← store_checked buf (start + i) x;
      copy_context_checked start bsize n' (i + 1) buf'
  end.

(** [AdvanceLpcState] with [None] wherever the C++ has no defined
    behaviour: [%] by zero, an access outside [buffer_storage_] or
    [residual_], [t_++] at [INT_MAX]. *)
Definition AdvanceLpcState_defined (p : LpcPrediction) (value residual : Z)
  : option LpcPrediction :=
  if block_size (Config_ p) =? 0 then None else
  let t_mod := t_mod_ p in
  p1 ← (if (t_mod =? 0) && negb (t_ p =? 0) then
          let order := lpc_order (Config_ p) in
          buf ← copy_context_checked (buffer_start_ p)
                  (block_size (Config_ p)) (Z.to_nat order) (- order)
                  (buffer_storage_ p);
          Some {| Config_ := Config_ p;
                  estimator_ := AcceptBlock (estimator_ p)
                                  (buf, buffer_start_ p) (residual_ p);
                  t_ := t_ p;
                  buffer_storage_ := buf;
                  residual_ := residual_ p |}
        else Some p);
  buf' ← store_checked (buffer_storage_ p1) (buffer_start_ p1 + t_mod) value;
  res' ← store_checked (residual_ p1) t_mod residual;
  if t_ p1 =? 2147483647 then None else
  Some {| Config_ := Config_ p1;
          estimator_ := estimator_ p1;
          t_ := t_ p1 + 1;
          buffer_storage_ := buf';
          residual_ := res' |}.

(** The [lpc_order] entries of the buffer just before the pointer
    [buffer_pos] that [GetPrediction] hands to
    [compute_lpc_prediction]. *)
Definition prediction_context (p : LpcPrediction) : list Z :=
  take (Z.to_nat (lpc_order (Config_ p)))
    (drop (Z.to_nat (t_mod_ p)) (buffer_storage_ p)).

(** All the values advanced over so far, after the [lpc_order] zeros the
    constructor puts in front. *)
Definition history (c : LpcConfig) (vr : list (Z * Z)) : list Z :=
  replicate (Z.to_nat (lpc_order c)) 0 ++ vr.*1.
End Defined.

(** How many slots of the current block are filled after [n] advances:
    none at the start, then 1 to [bsize]. *)
Definition block_fill (n bsize : nat) : nat :=
  match n with
  | O => O
  | S k => S (k `mod` bsize)
  end.

(** * Properties *)

(** ** Fixed-width integers *)

Lemma wrap_range bits z :
  0 < bits -> - 2 ^ (bits - 1) <= wrap bits z < 2 ^ (bits - 1).
Proof.
  intros Hb. unfold wrap.
  assert (H2 : 2 ^ bits = 2 * 2 ^ (bits - 1)).
  { replace bits with (Z.succ (bits - 1)) at 1 by lia.
    rewrite Z.pow_succ_r; lia. }
  assert (Hp : 0 < 2 ^ (bits - 1)) by (apply Z.pow_pos_nonneg; lia).
  pose proof (Z.mod_pos_bound (z + 2 ^ (bits - 1)) (2 ^ bits)). lia.
Qed.

Lemma wrap_small bits z :
  0 < bits -> - 2 ^ (bits - 1) <= z < 2 ^ (bits - 1) -> wrap bits z = z.
Proof.
  intros Hb Hz. unfold wrap.
  assert (H2 : 2 ^ bits = 2 * 2 ^ (bits - 1)).
  { replace bits with (Z.succ (bits - 1)) at 1 by lia.
    rewrite Z.pow_succ_r; lia. }
  rewrite Z.mod_small; lia.
Qed.

Lemma int16_of_is_int16 z : is_int16 (int16_of z).
Proof.
  pose proof (wrap_range 16 z). unfold is_int16, int16_of.
  change (2 ^ (16 - 1)) with 32768 in *. lia.
Qed.

Lemma int32_of_is_int32 z : is_int32 (int32_of z).
Proof.
  pose proof (wrap_range 32 z). unfold is_int32, int32_of.
  change (2 ^ (32 - 1)) with 2147483648 in *. lia.
Qed.

Lemma int16_of_id z : is_int16 z -> int16_of z = z.
Proof.
  unfold is_int16, int16_of. intros Hz. apply wrap_small; [lia|].
  change (2 ^ (16 - 1)) with 32768. lia.
Qed.

Lemma int32_of_id z : is_int32 z -> int32_of z = z.
Proof.
  unfold is_int32, int32_of. intros Hz. apply wrap_small; [lia|].
  change (2 ^ (32 - 1)) with 2147483648. lia.
Qed.

Lemma is_int16_is_int32 z : is_int16 z -> is_int32 z.
Proof. unfold is_int16, is_int32. lia. Qed.

(** An [int32_t] that survives the conversion to [int16_t] is in range. *)
Lemma int16_of_fixpoint z : z = int16_of z <-> is_int16 z.
Proof.
  split; intros H.
  - rewrite H. apply int16_of_is_int16.
  - symmetry. by apply int16_of_id.
Qed.

(** The sum of an [int16_t] and an [int32_t], wrapped to 32 bits, is an
    [int16_t] only if the exact sum is. *)
Lemma wrapped_sum_is_int16 p r :
  is_int16 p -> is_int32 r ->
  is_int16 (int32_of (p + r)) <-> is_int16 (p + r).
Proof.
  intros Hp Hr. split; intros H.
  - unfold int32_of, wrap in H.
    change (2 ^ (32 - 1)) with 2147483648 in H.
    change (2 ^ 32) with 4294967296 in H.
    unfold is_int16, is_int32 in *.
    pose proof (Z.div_mod (p + r + 2147483648) 4294967296).
    pose proof (Z.mod_pos_bound (p + r + 2147483648) 4294967296).
    lia.
  - rewrite int32_of_id; [done|]. by apply is_int16_is_int32.
Qed.

Create HintDb lpc.
#[local] Hint Resolve int16_of_is_int16 int32_of_is_int32 : lpc.

(** ** Arrays *)

Lemma load_lookup (a : list Z) (i : nat) x :
  a !! i = Some x -> load a (Z.of_nat i) = x.
Proof.
  intros H. unfold load.
  destruct (Z.leb_spec 0 (Z.of_nat i)); [|lia].
  by rewrite Nat2Z.id, H.
Qed.

Lemma store_insert (a : list Z) (i : nat) v :
  store a (Z.of_nat i) v = <[i := v]> a.
Proof.
  unfold store. destruct (Z.leb_spec 0 (Z.of_nat i)); [|lia].
  by rewrite Nat2Z.id.
Qed.

Lemma length_store (a : list Z) i v : length (store a i v) = length a.
Proof. unfold store. destruct (0 <=? i); [apply length_insert | done]. Qed.

Lemma store_Z (a : list Z) i v :
  0 <= i -> store a i v = <[Z.to_nat i := v]> a.
Proof. intros H. unfold store. by destruct (Z.leb_spec 0 i); [|lia]. Qed.

(** ** LpcPrediction *)

Section LpcPredictionProperties.
Context `{E : ToeplitzLpcEstimator}.
Implicit Types (p : LpcPrediction) (c : LpcConfig).

Lemma GetPrediction_is_int16 p : is_int16 (GetPrediction p).
Proof. unfold GetPrediction. auto with lpc. Qed.

(** On a well-formed state the C++ [%] is the mathematical [mod]. *)
Lemma t_mod_wf p :
  wf p ->
  t_mod_ p = t_ p `mod` block_size (Config_ p) /\
  0 <= t_mod_ p < block_size (Config_ p).
Proof.
  intros ((Ho & Hb & _) & Ht & _). unfold t_mod_.
  rewrite Z.rem_mod_nonneg by lia.
  split; [done | apply Z.mod_pos_bound; lia].
Qed.

(** Every index the copy loop touches is inside [buffer_storage_]. *)
Lemma copy_context_in_bounds c i :
  LpcConfig_valid c -> - lpc_order c <= i < 0 ->
  0 <= lpc_order c + i < lpc_order c + block_size c /\
  0 <= lpc_order c + block_size c + i < lpc_order c + block_size c.
Proof. intros (? & ? & ?) ?. lia. Qed.

(** So are the two slots [AdvanceLpcState] writes. *)
Lemma AdvanceLpcState_in_bounds p :
  wf p ->
  0 <= buffer_start_ p + t_mod_ p < Z.of_nat (length (buffer_storage_ p)) /\
  0 <= t_mod_ p < Z.of_nat (length (residual_ p)).
Proof.
  intros Hwf. destruct (t_mod_wf p Hwf) as [_ Hm].
  destruct Hwf as ((Ho & Hb & _) & _ & Hl1 & Hl2).
  unfold buffer_start_. lia.
Qed.

(** After [n] iterations that started at slot [j], the slots
    [j .. j + n - 1] hold what was [bsize] slots further. *)
Lemma copy_context_lookup (ord B : Z) (n j : nat) (buf : list Z) (k : nat) :
  0 < B -> Z.of_nat j + Z.of_nat n <= ord ->
  Z.of_nat (length buf) = ord + B ->
  copy_context ord B n (Z.of_nat j - ord) buf !! k =
    if decide (j <= k < j + n)%nat then buf !! (k + Z.to_nat B)%nat
    else buf !! k.
Proof.
  intros HB. revert j buf.
  induction n as [|n IH]; intros j buf Hj Hlen; simpl.
  - case_decide; [lia | done].
  - replace (ord + (Z.of_nat j - ord)) with (Z.of_nat j) by lia.
    replace (ord + B + (Z.of_nat j - ord))
      with (Z.of_nat (j + Z.to_nat B)) by lia.
    replace (Z.of_nat j - ord + 1) with (Z.of_nat (S j) - ord) by lia.
    destruct (lookup_lt_is_Some_2 buf (j + Z.to_nat B)) as [x Hx]; [lia|].
    rewrite (load_lookup _ _ _ Hx), store_insert.
    rewrite IH; [| lia | rewrite length_insert; lia].
    repeat case_decide; try lia.
    + rewrite list_lookup_insert_ne; [done | lia].
    + assert (k = j) by lia; subst k.
      rewrite list_lookup_insert_eq; [by rewrite Hx | lia].
    + rewrite list_lookup_insert_ne; [done | lia].
Qed.

(** The whole loop moves the last [lpc_order] entries of the buffer to
    its front and keeps the rest. *)
Lemma copy_context_shift (ord B : Z) (buf : list Z) :
  0 <= ord -> 0 < B -> Z.of_nat (length buf) = ord + B ->
  copy_context ord B (Z.to_nat ord) (- ord) buf
  = drop (Z.to_nat B) buf ++ drop (Z.to_nat ord) buf.
Proof.
  intros Ho HB Hlen. apply list_eq; intros k.
  change (- ord) with (Z.of_nat 0 - ord).
  rewrite copy_context_lookup by lia.
  case_decide.
  - rewrite lookup_app_l by (rewrite length_drop; lia).
    rewrite lookup_drop. f_equal; lia.
  - rewrite lookup_app_r by (rewrite length_drop; lia).
    rewrite lookup_drop, length_drop. f_equal; lia.
Qed.

Lemma block_boundary_eq p :
  wf p ->
  let copied :=
    drop (Z.to_nat (block_size (Config_ p))) (buffer_storage_ p)
    ++ drop (Z.to_nat (lpc_order (Config_ p))) (buffer_storage_ p) in
  block_boundary p =
    {| Config_ := Config_ p;
       estimator_ := AcceptBlock (estimator_ p)
                       (copied, lpc_order (Config_ p)) (residual_ p);
       t_ := t_ p;
       buffer_storage_ := copied;
       residual_ := residual_ p |}.
Proof.
  intros ((Ho & Hb & _) & _ & Hl & _). simpl.
  unfold block_boundary, buffer_start_.
  by rewrite copy_context_shift.
Qed.

(** Away from a block boundary an advance leaves the estimator alone. *)
Lemma AdvanceLpcState_estimator_within_block p value residual :
  t_mod_ p <> 0 \/ t_ p = 0 ->
  estimator_ (AdvanceLpcState p value residual) = estimator_ p.
Proof.
  intros H. unfold AdvanceLpcState. simpl.
  destruct (Z.eqb_spec (t_mod_ p) 0), (Z.eqb_spec (t_ p) 0);
    simpl; try done; lia.
Qed.

(** At a block boundary the estimate is made by the advance, that is
    after the prediction of the sample being advanced over. *)
Lemma AdvanceLpcState_estimator_at_boundary p value residual :
  t_mod_ p = 0 -> t_ p <> 0 ->
  estimator_ (AdvanceLpcState p value residual)
  = estimator_ (block_boundary p).
Proof.
  intros H0 Ht. unfold AdvanceLpcState. simpl.
  destruct (Z.eqb_spec (t_mod_ p) 0), (Z.eqb_spec (t_ p) 0);
    simpl; try done; lia.
Qed.

Lemma AdvanceLpcState_wf p value residual :
  wf p -> t_ p < 2147483647 -> wf (AdvanceLpcState p value residual).
Proof.
  intros Hwf Ht. pose proof (block_boundary_eq p Hwf) as Hbb.
  destruct Hwf as (Hc & Ht0 & Hl1 & Hl2).
  pose proof Hc as (Ho & Hb & Hs).
  unfold AdvanceLpcState.
  destruct ((t_mod_ p =? 0) && negb (t_ p =? 0)).
  - rewrite Hbb. unfold wf. simpl.
    rewrite !length_store, length_app, !length_drop.
    rewrite int32_of_id by (unfold is_int32; lia).
    repeat split; try done; lia.
  - unfold wf. simpl. rewrite !length_store.
    rewrite int32_of_id by (unfold is_int32; lia).
    repeat split; try done; lia.
Qed.

Lemma LpcPrediction_new_wf c : LpcConfig_valid c -> wf (LpcPrediction_new c).
Proof.
  intros Hc. pose proof Hc as (Ho & Hb & Hs). unfold wf. simpl.
  rewrite !length_replicate. repeat split; try done; lia.
Qed.
Lemma AdvanceLpcState_within_block p value residual :
  wf p -> t_ p < 2147483647 ->
  ~ (t_ p `mod` block_size (Config_ p) = 0 /\ t_ p <> 0) ->
  AdvanceLpcState p value residual =
    {| Config_ := Config_ p;
       estimator_ := estimator_ p;
       t_ := t_ p + 1;
       buffer_storage_ :=
         <[(Z.to_nat (lpc_order (Config_ p))
            + Z.to_nat (t_ p `mod` block_size (Config_ p)))%nat := value]>
           (buffer_storage_ p);
       residual_ :=
         <[Z.to_nat (t_ p `mod` block_size (Config_ p)) := residual]>
           (residual_ p) |}.
Proof.
  intros Hwf Hmax Hnb. destruct (t_mod_wf p Hwf) as [Hm Hr].
  destruct Hwf as ((Ho & Hb & _) & Ht & _).
  unfold AdvanceLpcState. rewrite Hm in *.
  assert ((t_ p `mod` block_size (Config_ p) =? 0) && negb (t_ p =? 0)
          = false) as ->.
  { destruct (Z.eqb_spec (t_ p `mod` block_size (Config_ p)) 0),
      (Z.eqb_spec (t_ p) 0); simpl; try done. tauto. }
  unfold buffer_start_.
  rewrite !store_Z, Z2Nat.inj_add by lia.
  rewrite int32_of_id by (unfold is_int32; lia). done.
Qed.

Lemma AdvanceLpcState_boundary p value residual :
  wf p -> t_ p < 2147483647 ->
  t_ p `mod` block_size (Config_ p) = 0 -> t_ p <> 0 ->
  let copied :=
    drop (Z.to_nat (block_size (Config_ p))) (buffer_storage_ p)
    ++ drop (Z.to_nat (lpc_order (Config_ p))) (buffer_storage_ p) in
  AdvanceLpcState p value residual =
    {| Config_ := Config_ p;
       estimator_ := AcceptBlock (estimator_ p)
                       (copied, lpc_order (Config_ p)) (residual_ p);
       t_ := t_ p + 1;
       buffer_storage_ :=
         <[(Z.to_nat (lpc_order (Config_ p))
            + Z.to_nat (t_ p `mod` block_size (Config_ p)))%nat := value]>
           copied;
       residual_ :=
         <[Z.to_nat (t_ p `mod` block_size (Config_ p)) := residual]>
           (residual_ p) |}.
Proof.
  intros Hwf Hmax Hz Hnz copied. destruct (t_mod_wf p Hwf) as [Hm Hr].
  destruct Hwf as ((Ho & Hb & _) & Ht & Hl & _).
  unfold AdvanceLpcState. rewrite Hm, Hz in *.
  destruct (Z.eqb_spec (t_ p) 0); [done|]. simpl.
  unfold buffer_start_. simpl.
  rewrite !store_Z, Z2Nat.inj_add by lia.
  rewrite int32_of_id by (unfold is_int32; lia).
  rewrite copy_context_shift by lia. done.
Qed.

(** C5 -- Context advance at a block boundary.  On a well-formed state
    whose [t_] can still be incremented, with [t_ mod block_size = 0] and
    [t_ <> 0], [AdvanceLpcState] first
    copies the last [lpc_order] entries of the buffer (the trailing
    [lpc_order] samples of the block just completed, when [lpc_order <=
    block_size]) into the left-context slots, leaving the block slots as
    they are; then it replaces the estimator by [AcceptBlock] run on that
    buffer and on the residual buffer; and only then stores [value] and
    [residual] at slot [t_ mod block_size] and increments [t_].  At every
    other time it only stores and increments. *)
Theorem AdvanceLpcState_at_block_boundary p value residual :
  wf p -> t_ p < 2147483647 ->
  let order := Z.to_nat (lpc_order (Config_ p)) in
  let bsize := Z.to_nat (block_size (Config_ p)) in
  let slot := Z.to_nat (t_ p `mod` block_size (Config_ p)) in
  let copied :=
    drop bsize (buffer_storage_ p) ++ drop order (buffer_storage_ p) in
  (t_ p `mod` block_size (Config_ p) = 0 /\ t_ p <> 0 ->
     AdvanceLpcState p value residual =
       {| Config_ := Config_ p;
          estimator_ := AcceptBlock (estimator_ p)
                          (copied, lpc_order (Config_ p)) (residual_ p);
          t_ := t_ p + 1;
          buffer_storage_ := <[(order + slot)%nat := value]> copied;
          residual_ := <[slot := residual]> (residual_ p) |}
     /\ take order copied = drop bsize (buffer_storage_ p)
     /\ length (drop bsize (buffer_storage_ p)) = order
     /\ drop order copied = current_block p
     /\ ((order <= bsize)%nat ->
         drop bsize (buffer_storage_ p)
         = drop (bsize - order) (current_block p)))
  /\ (~ (t_ p `mod` block_size (Config_ p) = 0 /\ t_ p <> 0) ->
     AdvanceLpcState p value residual =
       {| Config_ := Config_ p;
          estimator_ := estimator_ p;
          t_ := t_ p + 1;
          buffer_storage_ :=
            <[(order + slot)%nat := value]> (buffer_storage_ p);
          residual_ := <[slot := residual]> (residual_ p) |}).
Proof.
  intros Hwf Hmax order bsize slot copied.
  split; [|by apply AdvanceLpcState_within_block].
  intros [Hz Hnz].
  pose proof (AdvanceLpcState_boundary p value residual Hwf Hmax Hz Hnz)
    as Hadv.
  destruct Hwf as ((Ho & Hb & _) & Ht & Hl & _).
  assert (Hlen : length (drop bsize (buffer_storage_ p)) = order)
    by (rewrite length_drop; lia).
  repeat split.
  - exact Hadv.
  - unfold copied. by rewrite take_app_length'.
  - done.
  - unfold copied. by rewrite drop_app_length'.
  - intros Hle. unfold current_block. rewrite drop_drop.
    f_equal. lia.
Qed.

(** Through the first block the left context stays as the constructor
    left it, and so does the estimator. *)
Lemma first_block_state c (vr : list (Z * Z)) :
  LpcConfig_valid c ->
  Z.of_nat (length vr) <= block_size c ->
  let p := advance_all (LpcPrediction_new c) vr in
  wf p /\ Config_ p = c /\ t_ p = Z.of_nat (length vr) /\
  estimator_ p = ToeplitzLpcEstimator_new c /\
  left_context p = replicate (Z.to_nat (lpc_order c)) 0.
Proof.
  intros Hc. pose proof Hc as (Ho & Hb & Hs).
  induction vr as [|x vr IH] using rev_ind; intros Hlen p.
  - subst p. simpl. split; [by apply LpcPrediction_new_wf|].
    repeat split. unfold left_context. simpl.
    rewrite take_replicate. f_equal. lia.
  - rewrite length_app in Hlen. simpl in Hlen.
    destruct IH as (Hwf & Hcfg & Ht & He & Hlc); [lia|].
    subst p. unfold advance_all in *. rewrite fold_left_app.
    cbn [fold_left].
    set (q := fold_left _ vr _) in *.
    assert (Hnb : ~ (t_ q `mod` block_size (Config_ q) = 0 /\ t_ q <> 0)).
    { rewrite Hcfg, Ht. intros [H0 Hn0].
      rewrite Z.mod_small in H0 by lia. lia. }
    split; [apply AdvanceLpcState_wf; [done | lia]|].
    rewrite AdvanceLpcState_within_block by (done || lia).
    unfold left_context in *. simpl.
    rewrite length_app. simpl.
    repeat split; try done; [lia|].
    rewrite take_insert_ge by lia. done.
Qed.
(** The slot of the sample just advanced over holds its value. *)
Lemma AdvanceLpcState_stores p value residual :
  wf p -> t_ p < 2147483647 ->
  load (buffer_storage_ (AdvanceLpcState p value residual))
    (lpc_order (Config_ p) + t_ p `mod` block_size (Config_ p)) = value.
Proof.
  intros Hwf Hmax. pose proof Hwf as ((Ho & Hb & _) & Ht & Hl & _).
  pose proof (Z.mod_pos_bound (t_ p) (block_size (Config_ p)) Hb) as Hm.
  set (i := (Z.to_nat (lpc_order (Config_ p))
             + Z.to_nat (t_ p `mod` block_size (Config_ p)))%nat).
  replace (lpc_order (Config_ p) + t_ p `mod` block_size (Config_ p))
    with (Z.of_nat i) by lia.
  apply load_lookup.
  destruct (decide (t_ p `mod` block_size (Config_ p) = 0 /\ t_ p <> 0))
    as [[Hz Hnz]|Hnb].
  - rewrite AdvanceLpcState_boundary by done. simpl.
    apply list_lookup_insert_eq.
    rewrite length_app, !length_drop. lia.
  - rewrite AdvanceLpcState_within_block by done. simpl.
    apply list_lookup_insert_eq. lia.
Qed.

Lemma advance_all_wf p (vr : list (Z * Z)) :
  wf p -> t_ p + Z.of_nat (length vr) <= 2147483647 ->
  wf (advance_all p vr) /\
  Config_ (advance_all p vr) = Config_ p /\
  t_ (advance_all p vr) = t_ p + Z.of_nat (length vr).
Proof.
  intros Hwf. induction vr as [|x vr IH] using rev_ind; intros Hlen.
  - simpl. split; [done | split; [done | lia]].
  - rewrite length_app in Hlen |- *. cbn [length] in Hlen |- *.
    destruct IH as (Hq & Hc & Ht); [lia|].
    unfold advance_all in *. rewrite fold_left_app. cbn [fold_left].
    set (q := fold_left _ vr p) in *.
    split; [apply AdvanceLpcState_wf; [done | lia]|].
    destruct (decide (t_ q `mod` block_size (Config_ q) = 0 /\ t_ q <> 0))
      as [[Hz Hnz]|Hnb].
    + rewrite AdvanceLpcState_boundary by (done || lia). simpl.
      split; [done | lia].
    + rewrite AdvanceLpcState_within_block by (done || lia). simpl.
      split; [done | lia].
Qed.

Lemma advance_all_last p (vr : list (Z * Z)) value residual :
  wf p -> t_ p + Z.of_nat (length vr) < 2147483647 ->
  load (buffer_storage_ (advance_all p (vr ++ [(value, residual)])))
    (lpc_order (Config_ p)
     + (t_ p + Z.of_nat (length vr)) `mod` block_size (Config_ p)) = value.
Proof.
  intros Hwf Hlen.
  destruct (advance_all_wf p vr Hwf) as (Hq & Hc & Ht); [lia|].
  unfold advance_all in *. rewrite fold_left_app. cbn [fold_left fst snd].
  rewrite <- Hc, <- Ht. apply AdvanceLpcState_stores; [done | lia].
Qed.

(** From an advance that is not at a block boundary up to the next
    boundary, the estimator, and with it the coefficient vector
    [GetPrediction] uses, does not change: the vector installed by the
    advance over the first sample of a block serves the predictions of the
    rest of that block and of the first sample of the next one. *)
Lemma estimator_held_to_next_block_start p (vr : list (Z * Z)) :
  wf p ->
  t_ p + Z.of_nat (length vr) <= 2147483647 ->
  0 < t_ p `mod` block_size (Config_ p) ->
  t_ p `mod` block_size (Config_ p) + Z.of_nat (length vr)
    <= block_size (Config_ p) ->
  estimator_ (advance_all p vr) = estimator_ p.
Proof.
  intros Hwf. induction vr as [|x vr IH] using rev_ind;
    intros Hmax Hpos Hlen; [done|].
  rewrite length_app in Hmax, Hlen. cbn [length] in Hmax, Hlen.
  destruct (advance_all_wf p vr Hwf) as (Hq & Hc & Ht); [lia|].
  unfold advance_all in *. rewrite fold_left_app. cbn [fold_left].
  set (q := fold_left _ vr p) in *.
  rewrite AdvanceLpcState_within_block; [simpl; apply IH; lia | done | lia |].
  rewrite Hc, Ht. intros [Hz _].
  pose proof Hwf as ((_ & Hb & _) & _).
  rewrite <- Z.add_mod_idemp_l in Hz by lia.
  rewrite Z.mod_small in Hz by lia. lia.
Qed.
End LpcPredictionProperties.

(** ** LpcStream and ReverseLpcStream *)

Section StreamProperties.
Context `{E : ToeplitzLpcEstimator} `{C : ResidualCoder}.
Implicit Types (s : LpcStream) (d : ReverseTruncatedIntStream).

(** [value - static_cast<int32_t>(prediction)] does not overflow. *)
Lemma residual_exact value prediction :
  is_int16 value -> is_int16 prediction ->
  -65535 <= value - prediction <= 65535 /\
  int32_of (value - prediction) = value - prediction.
Proof.
  unfold is_int16. intros Hv Hp. split; [lia|].
  apply int32_of_id. unfold is_int32. lia.
Qed.

Lemma Write_eq s value out :
  let prediction := GetPrediction (enc_lpc s) in
  let residual := int32_of (value - prediction) in
  let committed := WriteLimited (enc_stream s) residual prediction in
  Write s value out =
    {| w_stream :=
         {| enc_stream := committed.1;
            enc_lpc := AdvanceLpcState (enc_lpc s) committed.2.1
                         committed.2.2 |};
       w_out := match out with
                | Some _ => Some committed.2.1
                | None => None
                end;
       w_cout :=
         (if committed.2.2 =? residual then []
          else [residual_mismatch residual committed.2.2]) ++
         (if committed.2.1 =? value then []
          else [value_mismatch value committed.2.1]) |}.
Proof.
  intros prediction residual committed. unfold Write.
  fold prediction. fold residual. unfold committed.
  by destruct (WriteLimited (enc_stream s) residual prediction)
    as [? [? ?]].
Qed.

(** C7 -- Encoder write algorithm.  For an [int16_t] [value], [Write]
    computes [residual = value - GetPrediction()] exactly (the 32-bit
    subtraction does not wrap, and the residual can take 17 bits), hands
    it to [WriteLimited] with the prediction as side information, advances
    the prediction state with the committed [(decompressed_value,
    decompressed_residual)] and gives [decompressed_value] back through
    [decompressed_value_out] (when the caller passed a cell). *)
Theorem Write_commits_reconstruction s value out :
  is_int16 value ->
  let prediction := GetPrediction (enc_lpc s) in
  let residual := value - prediction in
  let committed := WriteLimited (enc_stream s) residual prediction in
  -65535 <= residual <= 65535 /\
  w_stream (Write s value out) =
    {| enc_stream := committed.1;
       enc_lpc := AdvanceLpcState (enc_lpc s) committed.2.1
                    committed.2.2 |} /\
  w_out (Write s value out) = match out with
                              | Some _ => Some committed.2.1
                              | None => None
                              end.
Proof.
  intros Hv prediction residual committed.
  destruct (residual_exact value prediction Hv (GetPrediction_is_int16 _))
    as [Hr Hid].
  rewrite Write_eq. simpl. fold prediction. rewrite Hid. done.
Qed.

(** At the first sample of a block (other than the first block) [Write]
    predicts with the estimator as it stands, and the estimate from the
    block just completed is made by the advance that follows. *)
Lemma Write_at_block_start s value out :
  t_mod_ (enc_lpc s) = 0 -> t_ (enc_lpc s) <> 0 ->
  let prediction := GetPrediction (enc_lpc s) in
  let committed :=
    WriteLimited (enc_stream s) (int32_of (value - prediction)) prediction in
  prediction
  = int16_of (compute_lpc_prediction
                (buffer_storage_ (enc_lpc s), buffer_start_ (enc_lpc s))
                (GetLpcCoeffs (estimator_ (enc_lpc s)))) /\
  estimator_ (enc_lpc (w_stream (Write s value out)))
  = estimator_ (block_boundary (enc_lpc s)).
Proof.
  intros Hz Hnz prediction committed. split.
  - unfold prediction, GetPrediction. by rewrite Hz, Z.add_0_r.
  - rewrite Write_eq. cbn [w_stream enc_lpc].
    by apply AdvanceLpcState_estimator_at_boundary.
Qed.

Lemma Read_None (r : ReverseLpcStream) value d :
  ReverseTruncatedIntStream_Read (dec_stream r) = (d, None) ->
  Read r value =
    {| r_stream := {| dec_stream := d; dec_lpc := dec_lpc r |};
       r_ok := false; r_value := value |}.
Proof. intros H. unfold Read. by rewrite H. Qed.

Lemma Read_in_range (r : ReverseLpcStream) value d residual :
  ReverseTruncatedIntStream_Read (dec_stream r) = (d, Some residual) ->
  is_int16 (GetPrediction (dec_lpc r) + residual) ->
  Read r value =
    {| r_stream :=
         {| dec_stream := d;
            dec_lpc := AdvanceLpcState (dec_lpc r)
                         (GetPrediction (dec_lpc r) + residual) residual |};
       r_ok := true;
       r_value := GetPrediction (dec_lpc r) + residual |}.
Proof.
  intros H Hin. unfold Read. rewrite H.
  rewrite (int32_of_id _ (is_int16_is_int32 _ Hin)).
  rewrite (int16_of_id _ Hin). by rewrite Z.eqb_refl.
Qed.

Lemma Read_out_of_range (r : ReverseLpcStream) value d residual :
  ReverseTruncatedIntStream_Read (dec_stream r) = (d, Some residual) ->
  is_int32 residual ->
  ~ is_int16 (GetPrediction (dec_lpc r) + residual) ->
  Read r value =
    {| r_stream := {| dec_stream := d; dec_lpc := dec_lpc r |};
       r_ok := false; r_value := value |}.
Proof.
  intros H H32 Hout. unfold Read. rewrite H.
  destruct (Z.eqb_spec (int32_of (GetPrediction (dec_lpc r) + residual))
              (int16_of (int32_of (GetPrediction (dec_lpc r) + residual))))
    as [Heq|Hne]; [|done].
  apply int16_of_fixpoint in Heq.
  apply (wrapped_sum_is_int16 _ _ (GetPrediction_is_int16 _) H32) in Heq.
  done.
Qed.

Lemma is_int16_dec z : {is_int16 z} + {~ is_int16 z}.
Proof.
  unfold is_int16.
  destruct (Z_le_dec (-32768) z), (Z_le_dec z 32767);
    [left | right | right | right]; lia.
Qed.

(** C6 -- Decoder read algorithm.  When [Read] returns [true], the
    residual coder delivered a residual, the value given to the caller is
    exactly [GetPrediction() + residual], it is an [int16_t], and the
    prediction state was advanced with the pair [(GetPrediction() +
    residual, residual)]: the decoder's residual is the decoded one. *)
Theorem Read_reconstructs (r : ReverseLpcStream) value :
  (forall d residual,
      ReverseTruncatedIntStream_Read (dec_stream r) = (d, Some residual) ->
      is_int32 residual) ->
  r_ok (Read r value) = true ->
  exists d residual,
    ReverseTruncatedIntStream_Read (dec_stream r) = (d, Some residual) /\
    let candidate := GetPrediction (dec_lpc r) + residual in
    is_int16 candidate /\
    r_value (Read r value) = candidate /\
    r_stream (Read r value) =
      {| dec_stream := d;
         dec_lpc := AdvanceLpcState (dec_lpc r) candidate residual |}.
Proof.
  intros H32 Hok.
  destruct (ReverseTruncatedIntStream_Read (dec_stream r))
    as [d [residual|]] eqn:Hrd.
  - exists d, residual. split; [done|]. simpl.
    destruct (is_int16_dec (GetPrediction (dec_lpc r) + residual))
      as [Hin|Hout].
    + by rewrite (Read_in_range _ _ _ _ Hrd Hin).
    + rewrite (Read_out_of_range _ _ _ _ Hrd (H32 _ _ eq_refl) Hout) in Hok.
      done.
  - by rewrite (Read_None _ _ _ Hrd) in Hok.
Qed.

(** C9 -- Atomicity of decoder failure.  Whenever [Read] returns [false],
    for either reason, the prediction state ([t_], buffer, residual block
    and estimator) is the one before the call and [*value] is untouched. *)
Theorem Read_failure_leaves_state (r : ReverseLpcStream) value :
  r_ok (Read r value) = false ->
  dec_lpc (r_stream (Read r value)) = dec_lpc r /\
  r_value (Read r value) = value.
Proof.
  unfold Read.
  destruct (ReverseTruncatedIntStream_Read (dec_stream r)) as [d [x|]];
    [|done].
  by destruct (negb _).
Qed.

(** C3, as the code has it -- [Read] returns [false] exactly when the
    residual coder is exhausted or the candidate value leaves the
    [int16_t] range, and the caller observes the same thing in both
    cases: [false], with [*value] untouched. *)
Theorem Read_false_iff (r : ReverseLpcStream) value :
  (forall d residual,
      ReverseTruncatedIntStream_Read (dec_stream r) = (d, Some residual) ->
      is_int32 residual) ->
  (r_ok (Read r value) = false <-> exhausted r \/ out_of_range r) /\
  (exhausted r -> observed (Read r value) = (false, value)) /\
  (out_of_range r -> observed (Read r value) = (false, value)).
Proof.
  intros H32. unfold exhausted, out_of_range, observed.
  destruct (ReverseTruncatedIntStream_Read (dec_stream r))
    as [d [residual|]] eqn:Hrd; simpl.
  - destruct (is_int16_dec (GetPrediction (dec_lpc r) + residual))
      as [Hin|Hout].
    + rewrite (Read_in_range _ _ _ _ Hrd Hin). simpl.
      repeat split; try done.
      * intros [?|(x & [= <-] & _ & Hx)]; done.
      * intros (x & [= <-] & _ & Hx); done.
    + rewrite (Read_out_of_range _ _ _ _ Hrd (H32 _ _ eq_refl) Hout).
      simpl. repeat split; try done.
      intros _. right. exists residual. eauto.
  - rewrite (Read_None _ _ _ Hrd). simpl. repeat split; auto.
Qed.

Lemma AdvanceLpcState_assert_iff (p : LpcPrediction) value residual :
  AdvanceLpcState_assert p value residual = true <->
  2 < t_mod_ p \/ residual = value - GetPrediction p.
Proof.
  unfold AdvanceLpcState_assert.
  rewrite orb_true_iff, Z.ltb_lt, Z.eqb_eq. done.
Qed.

(** *** Runs *)

Lemma write_all_cons s v rest :
  write_all s (v :: rest) =
    ((write_all (w_stream (Write s v (Some 0))) rest).1,
     default 0 (w_out (Write s v (Some 0)))
       :: (write_all (w_stream (Write s v (Some 0))) rest).2).
Proof. simpl. by destruct (write_all _ rest). Qed.

Lemma read_n_S n (r : ReverseLpcStream) :
  read_n (S n) r =
    if r_ok (Read r 0) then
      ((read_n n (r_stream (Read r 0))).1,
       r_value (Read r 0) :: (read_n n (r_stream (Read r 0))).2)
    else (r_stream (Read r 0), []).
Proof. simpl. destruct (r_ok _); [|done]. by destruct (read_n n _). Qed.

(** The coder of an [LpcStream] run is the coder run on its requests. *)
Lemma write_all_coder samples : forall s,
  WriteLimited_all (enc_stream s) (write_requests s samples)
  = (enc_stream (write_all s samples).1, write_commits s samples).
Proof.
  induction samples as [|v rest IH]; intros s; [done|].
  rewrite write_all_cons. cbn [write_requests write_commits WriteLimited_all].
  cbn [fst snd]. specialize (IH (w_stream (Write s v (Some 0)))).
  rewrite Write_eq in IH |- *. cbn [w_stream enc_stream] in IH |- *.
  destruct (WriteLimited (enc_stream s) _ _) as [st cm]. cbn [fst snd] in *.
  rewrite IH. done.
Qed.

Lemma write_requests_valid samples : forall s,
  Forall is_int16 samples -> Forall valid_request (write_requests s samples).
Proof.
  induction samples as [|v rest IH]; intros s Hs; [constructor|].
  inversion_clear Hs as [|? ? Hv Hrest].
  cbn [write_requests]. constructor; [|by apply IH].
  destruct (residual_exact v _ Hv (GetPrediction_is_int16 (enc_lpc s)))
    as [_ Hid].
  split; cbn [fst snd]; [apply GetPrediction_is_int16|].
  rewrite Hid. by replace (_ + _) with v by lia.
Qed.

(** With an exact coder the requests add up to the samples. *)
Lemma write_requests_sum samples : forall s,
  Forall is_int16 samples ->
  (fun rq : Z * Z => rq.2 + rq.1) <$> write_requests s samples = samples.
Proof.
  induction samples as [|v rest IH]; intros s Hs; [done|].
  inversion_clear Hs as [|? ? Hv Hrest].
  cbn [write_requests fmap list_fmap fst snd]. rewrite IH by done. f_equal.
  destruct (residual_exact v _ Hv (GetPrediction_is_int16 (enc_lpc s)))
    as [_ ->]. lia.
Qed.

(** What [write_all] collects are the committed values. *)
Lemma write_all_values samples : forall s,
  (write_all s samples).2 = (write_commits s samples).*1.
Proof.
  induction samples as [|v rest IH]; intros s; [done|].
  rewrite write_all_cons. cbn [write_commits fmap list_fmap snd].
  rewrite IH, Write_eq. done.
Qed.

(** The encoder's prediction state is advanced with the commits. *)
Lemma write_all_advance samples : forall s,
  enc_lpc (write_all s samples).1
  = advance_all (enc_lpc s) (write_commits s samples).
Proof.
  induction samples as [|v rest IH]; intros s; [done|].
  rewrite write_all_cons. cbn [write_commits advance_all fold_left fst].
  rewrite IH, Write_eq. done.
Qed.

Lemma write_requests_take samples : forall n s,
  write_requests s (take n samples) = take n (write_requests s samples).
Proof.
  induction samples as [|v rest IH]; intros [|n] s; try done.
  cbn [take write_requests]. by rewrite IH.
Qed.

Lemma write_commits_take samples : forall n s,
  write_commits s (take n samples) = take n (write_commits s samples).
Proof.
  induction samples as [|v rest IH]; intros [|n] s; try done.
  cbn [take write_commits]. by rewrite IH.
Qed.

Lemma reads_prefix_take rs : forall n d,
  reads_prefix d rs -> reads_prefix d (take n rs).
Proof.
  induction rs as [|x rs IH]; intros [|n] d; try done.
  intros [H1 H2]. split; [done | by apply IH].
Qed.

(** The decoder follows the encoder: fed the committed residuals of a run
    whose commits are consistent, [n] reads succeed, give the committed
    values and leave the prediction state the encoder is in. *)
Lemma read_n_write_all samples : forall s d,
  Forall is_int16 samples ->
  Forall2 commit_consistent (write_requests s samples)
    (write_commits s samples) ->
  reads_prefix d (write_commits s samples).*2 ->
  read_n (length samples) {| dec_stream := d; dec_lpc := enc_lpc s |}
  = ({| dec_stream := after_reads d (length samples);
        dec_lpc := enc_lpc (write_all s samples).1 |},
     (write_all s samples).2).
Proof.
  induction samples as [|v rest IH]; intros s d Hs Hcm Hrd; [done|].
  inversion_clear Hs as [|? ? Hv Hrest].
  cbn [write_requests write_commits] in Hcm, Hrd.
  apply Forall2_cons_1 in Hcm as [[Hdv Hin] Hcm].
  cbn [fmap list_fmap reads_prefix] in Hrd. destruct Hrd as [Hr1 Hr2].
  cbn [fst snd] in Hdv, Hin, Hr1.
  cbn [length after_reads]. rewrite read_n_S, write_all_cons.
  rewrite Write_eq in Hcm, Hr2 |- *.
  cbn [w_stream w_out enc_lpc default] in Hcm, Hr2 |- *.
  set (cm := WriteLimited _ _ _) in *.
  destruct (ReverseTruncatedIntStream_Read d) as [d1 o] eqn:Hd.
  cbn [fst snd] in Hr1, Hr2 |- *. subst o.
  assert (Hsum : GetPrediction (enc_lpc s) + cm.2.2 = cm.2.1) by lia.
  rewrite (Read_in_range _ _ d1 cm.2.2) by (cbn; by rewrite ?Hsum).
  cbn [r_ok r_stream r_value dec_lpc]. rewrite Hsum.
  specialize (IH {| enc_stream := cm.1;
                    enc_lpc := AdvanceLpcState (enc_lpc s) cm.2.1 cm.2.2 |}
                d1 Hrest Hcm Hr2).
  cbn [enc_lpc] in IH. rewrite IH. done.
Qed.

Lemma read_all_of_read_n n : forall (r r_n : ReverseLpcStream) vals fuel,
  read_n n r = (r_n, vals) -> length vals = n ->
  r_ok (Read r_n 0) = false -> (n < fuel)%nat ->
  read_all fuel r = (r_stream (Read r_n 0), vals, true).
Proof.
  induction n as [|n IH]; intros r r_n vals fuel Hn Hlen Hend Hfuel;
    (destruct fuel as [|fuel]; [lia|]).
  - injection Hn as <- <-. cbn [read_all]. by rewrite Hend.
  - rewrite read_n_S in Hn. cbn [read_all].
    destruct (r_ok (Read r 0)).
    + destruct (read_n n _) as [r' vs] eqn:Hr'.
      injection Hn as <- <-. cbn [length] in Hlen.
      rewrite (IH _ r' vs fuel Hr') by (done || lia). done.
    + injection Hn as <- <-. done.
Qed.

Lemma length_write_commits samples : forall s,
  length (write_commits s samples) = length samples.
Proof.
  induction samples as [|v rest IH]; intros s; [done|].
  cbn [write_commits length]. by rewrite IH.
Qed.

(** The whole run against the decoder built from its code. *)
Lemma run_contract tc c samples :
  Forall is_int16 samples -> decoder_inverts tc ->
  let s0 := LpcStream_new tc c in
  Forall valid_request (write_requests s0 samples) /\
  (WriteLimited_all (TruncatedIntStream_new tc) (write_requests s0 samples)).2
    = write_commits s0 samples /\
  reads_exactly
    (ReverseTruncatedIntStream_new tc
       (Code (enc_stream (write_all s0 samples).1)))
    (write_commits s0 samples).*2.
Proof.
  intros Hs Hinv s0.
  pose proof (write_requests_valid samples s0 Hs) as Hval.
  pose proof (write_all_coder samples s0) as Hrun.
  specialize (Hinv _ Hval). change (enc_stream s0) with
    (TruncatedIntStream_new tc) in Hrun.
  rewrite Hrun in Hinv |- *. done.
Qed.

(** C2 -- Lockstep invariant.  For a valid configuration, a run of at
    most [INT_MAX] samples, a coder whose commits are consistent
    and a decoder-side coder that inverts it: after the encoder has
    written the first [n] samples and the decoder has read [n] samples
    from the code of the whole run, the two prediction states are equal
    (same [t_], same estimator and coefficients, same buffer, same
    residual block), the [n] reads all succeeded, and they gave the
    values the encoder reconstructed. *)
Theorem lockstep tc c samples n :
  LpcConfig_valid c -> Z.of_nat (length samples) <= 2147483647 ->
  Forall is_int16 samples ->
  coder_consistent tc -> decoder_inverts tc ->
  (n <= length samples)%nat ->
  let code :=
    Code (enc_stream (write_all (LpcStream_new tc c) samples).1) in
  let enc_n := write_all (LpcStream_new tc c) (take n samples) in
  let dec_n := read_n n (ReverseLpcStream_new tc c code) in
  dec_lpc dec_n.1 = enc_lpc enc_n.1 /\
  t_ (dec_lpc dec_n.1) = t_ (enc_lpc enc_n.1) /\
  GetLpcCoeffs (estimator_ (dec_lpc dec_n.1))
    = GetLpcCoeffs (estimator_ (enc_lpc enc_n.1)) /\
  buffer_storage_ (dec_lpc dec_n.1) = buffer_storage_ (enc_lpc enc_n.1) /\
  residual_ (dec_lpc dec_n.1) = residual_ (enc_lpc enc_n.1) /\
  GetPrediction (dec_lpc dec_n.1) = GetPrediction (enc_lpc enc_n.1) /\
  dec_n.2 = enc_n.2 /\ length dec_n.2 = n /\
  (forall i, n = S i -> Z.of_nat i < 2147483647 ->
     exists v,
       enc_n.2 !! i = Some v /\
       load (buffer_storage_ (enc_lpc enc_n.1))
         (lpc_order c + Z.of_nat i `mod` block_size c) = v /\
       load (buffer_storage_ (dec_lpc dec_n.1))
         (lpc_order c + Z.of_nat i `mod` block_size c) = v).
Proof.
  intros Hc _ Hs Hcons Hinv Hn code enc_n dec_n.
  destruct (run_contract tc c samples Hs Hinv) as (Hval & Hrun & Hrd & _).
  specialize (Hcons _ Hval). rewrite Hrun in Hcons.
  pose proof (read_n_write_all (take n samples) (LpcStream_new tc c)
                (ReverseTruncatedIntStream_new tc code)) as H.
  rewrite write_requests_take, write_commits_take in H.
  rewrite length_take_le in H by done.
  rewrite fmap_take in H.
  specialize (H (Forall_take _ _ _ Hs) (Forall2_take _ _ _ _ Hcons)
                (reads_prefix_take _ _ _ Hrd)).
  assert (Hd : dec_n = ({| dec_stream :=
                             after_reads
                               (ReverseTruncatedIntStream_new tc code) n;
                           dec_lpc := enc_lpc enc_n.1 |}, enc_n.2))
    by exact H.
  rewrite Hd. cbn [fst snd dec_lpc].
  repeat split.
  - unfold enc_n. rewrite write_all_values, length_fmap, write_commits_take.
    rewrite length_take_le; [done|]. by rewrite length_write_commits.
  - intros i -> Hi.
    destruct (lookup_lt_is_Some_2
                (write_commits (LpcStream_new tc c) samples) i)
      as [[v r] Hcm]; [rewrite length_write_commits; lia|].
    assert (Hload :
      load (buffer_storage_ (enc_lpc enc_n.1))
        (lpc_order c + Z.of_nat i `mod` block_size c) = v).
    { unfold enc_n.
      rewrite write_all_advance, write_commits_take, (take_S_r _ _ _ Hcm).
      pose proof (advance_all_last (LpcPrediction_new c)
                    (take i (write_commits (LpcStream_new tc c) samples))
                    v r (LpcPrediction_new_wf c Hc)) as Hl.
      rewrite length_take_le in Hl
        by (rewrite length_write_commits; lia).
      apply Hl. simpl. lia. }
    exists v. split; [|done].
    unfold enc_n.
    rewrite write_all_values, write_commits_take, (take_S_r _ _ _ Hcm).
    rewrite fmap_app. apply list_lookup_middle.
    rewrite length_fmap, length_take_le; [done|].
    rewrite length_write_commits; lia.
Qed.

(** C1 -- Round trip under a lossless configuration.  For a valid
    configuration, at most [INT_MAX] samples, a coder that
    never truncates and a decoder-side coder that inverts it: reading the
    code of a run over [int16_t] samples gives back exactly the samples,
    one per successful [Read], and the next [Read] returns [false] because
    the residual coder is at its end. *)
Theorem round_trip tc c samples :
  LpcConfig_valid c -> Z.of_nat (length samples) <= 2147483647 ->
  Forall is_int16 samples ->
  coder_never_truncates tc -> decoder_inverts tc ->
  let code :=
    Code (enc_stream (write_all (LpcStream_new tc c) samples).1) in
  let decoder := ReverseLpcStream_new tc c code in
  (read_n (length samples) decoder).2 = samples /\
  exhausted (read_n (length samples) decoder).1 /\
  (forall value,
      observed (Read (read_n (length samples) decoder).1 value)
      = (false, value)) /\
  (forall fuel, (length samples < fuel)%nat ->
      (read_all fuel decoder).1.2 = samples /\
      (read_all fuel decoder).2 = true).
Proof.
  intros _ _ Hs Hexact Hinv code decoder.
  destruct (run_contract tc c samples Hs Hinv)
    as (Hval & Hrun & Hrd & Hend).
  specialize (Hexact _ Hval). rewrite Hrun in Hexact.
  assert (Hcons : Forall2 commit_consistent
                    (write_requests (LpcStream_new tc c) samples)
                    (write_commits (LpcStream_new tc c) samples)).
  { rewrite Hexact. apply Forall2_fmap_r, Forall_Forall2_diag.
    eapply Forall_impl; [|exact Hval]. by intros rq [_ H]. }
  pose proof (read_n_write_all samples (LpcStream_new tc c)
                (ReverseTruncatedIntStream_new tc code) Hs Hcons Hrd) as Hn.
  change (read_n (length samples) decoder = 
            ({| dec_stream :=
                  after_reads (ReverseTruncatedIntStream_new tc code)
                    (length samples);
                dec_lpc :=
                  enc_lpc (write_all (LpcStream_new tc c) samples).1 |},
             (write_all (LpcStream_new tc c) samples).2)) in Hn.
  assert (Hvals : (write_all (LpcStream_new tc c) samples).2 = samples).
  { rewrite write_all_values, Hexact, <- list_fmap_compose.
    by apply write_requests_sum. }
  rewrite Hvals in Hn.
  rewrite length_fmap, length_write_commits in Hend.
  assert (Hex : exhausted (read_n (length samples) decoder).1)
    by (by rewrite Hn).
  assert (Hfalse : forall value,
             Read (read_n (length samples) decoder).1 value =
             {| r_stream :=
                  {| dec_stream :=
                       (ReverseTruncatedIntStream_Read
                          (dec_stream (read_n (length samples) decoder).1)).1;
                     dec_lpc := dec_lpc (read_n (length samples) decoder).1 |};
                r_ok := false; r_value := value |}).
  { intros value. apply Read_None. unfold exhausted in Hex.
    rewrite <- Hex. apply surjective_pairing. }
  repeat split; try done.
  - by rewrite Hn.
  - intros value. by rewrite Hfalse.
  - rewrite (read_all_of_read_n (length samples) decoder
               (read_n (length samples) decoder).1 samples fuel);
      [done | by rewrite Hn | done | by rewrite Hfalse | done].
  - rewrite (read_all_of_read_n (length samples) decoder
               (read_n (length samples) decoder).1 samples fuel);
      [done | by rewrite Hn | done | by rewrite Hfalse | done].
Qed.

(** The request and the commit of the [n]-th [Write] of a run: they are
    made on the stream the first [n] writes leave. *)
Lemma write_run_lookup samples : forall (n : nat) s value,
  samples !! n = Some value ->
  let s_n := (write_all s (take n samples)).1 in
  let prediction := GetPrediction (enc_lpc s_n) in
  write_requests s samples !! n
  = Some (int32_of (value - prediction), prediction) /\
  write_commits s samples !! n
  = Some (WriteLimited (enc_stream s_n) (int32_of (value - prediction))
            prediction).2.
Proof.
  induction samples as [|v rest IH]; intros [|n] s value Hn; try done.
  - injection Hn as <-. done.
  - cbn [take]. rewrite write_all_cons. cbn [fst].
    cbn [write_requests write_commits]. by apply IH.
Qed.

(** C8 -- Debug assertion scope and validity.  The [assert] of
    [AdvanceLpcState] holds whenever [t_ % block_size > 2] (the identity
    is not looked at there) and, at the positions [t_ % block_size <= 2],
    exactly when [residual == value - GetPrediction()].  In a run of
    [Write] from the constructor over [int16_t] samples, with a residual
    coder that meets its contract, the call of [AdvanceLpcState] made by
    every [Write] of the run satisfies it; and so does the call made by
    [Read], whatever [int32_t] residual the coder delivers. *)
Theorem assertion_scope_and_validity tc c samples (n : nat) value
    (r : ReverseLpcStream) :
  LpcConfig_valid c -> Z.of_nat (length samples) <= 2147483647 ->
  Forall is_int16 samples -> coder_consistent tc ->
  samples !! n = Some value ->
  (forall d residual,
      ReverseTruncatedIntStream_Read (dec_stream r) = (d, Some residual) ->
      is_int32 residual) ->
  (forall (p : LpcPrediction) v res,
      (2 < t_mod_ p -> AdvanceLpcState_assert p v res = true) /\
      (t_mod_ p <= 2 ->
       AdvanceLpcState_assert p v res = true <-> res = v - GetPrediction p))
  /\ Write_assert (write_all (LpcStream_new tc c) (take n samples)).1 value
     = true
  /\ Read_assert r = true.
Proof.
  intros _ _ Hs Hcons Hn H32. repeat split.
  - intros Hlt. apply AdvanceLpcState_assert_iff. by left.
  - intros Ha. apply AdvanceLpcState_assert_iff in Ha. lia.
  - intros ->. apply AdvanceLpcState_assert_iff. by right.
  - pose proof (write_requests_valid samples (LpcStream_new tc c) Hs)
      as Hval.
    specialize (Hcons _ Hval).
    pose proof (write_all_coder samples (LpcStream_new tc c)) as Hrun.
    change (enc_stream (LpcStream_new tc c))
      with (TruncatedIntStream_new tc) in Hrun.
    rewrite Hrun in Hcons. cbn [snd] in Hcons.
    destruct (write_run_lookup samples n (LpcStream_new tc c) value Hn)
      as [Hrq Hcm].
    pose proof (Forall2_lookup_lr _ _ _ _ _ _ Hcons Hrq Hcm) as [Hdv _].
    cbn [fst snd] in Hdv.
    unfold Write_assert.
    destruct (WriteLimited _ _ _) as [st [dv dr]]. cbn [fst snd] in Hdv.
    apply AdvanceLpcState_assert_iff. right. lia.
  - unfold Read_assert.
    destruct (ReverseTruncatedIntStream_Read (dec_stream r))
      as [d [residual|]] eqn:Hrd; [|done].
    destruct (Z.eqb_spec (int32_of (GetPrediction (dec_lpc r) + residual))
                (int16_of (int32_of (GetPrediction (dec_lpc r) + residual))))
      as [Heq|Hne]; [|done].
    simpl. rewrite <- Heq.
    apply int16_of_fixpoint in Heq.
    apply (wrapped_sum_is_int16 _ _ (GetPrediction_is_int16 _)
             (H32 _ _ eq_refl)) in Heq.
    rewrite (int32_of_id _ (is_int16_is_int32 _ Heq)).
    apply AdvanceLpcState_assert_iff. right. lia.
Qed.

(** C10 -- Initial state after construction.  A fresh [LpcPrediction]
    has [t_ = 0] and [lpc_order + block_size] buffer slots, all zero; the
    encoder and the decoder start from this same state, so their first
    prediction is the same function of an all-zero buffer and of the
    constructor's coefficients; and through the whole first block (after
    at most [block_size] advances, whatever the values) the left context
    is still all zero and the coefficients are still the constructor's. *)
Theorem initial_state tc c code (vr : list (Z * Z)) :
  LpcConfig_valid c ->
  Z.of_nat (length vr) <= block_size c ->
  let p0 := LpcPrediction_new c in
  t_ p0 = 0 /\
  buffer_storage_ p0
    = replicate (Z.to_nat (lpc_order c) + Z.to_nat (block_size c)) 0 /\
  enc_lpc (LpcStream_new tc c) = p0 /\
  dec_lpc (ReverseLpcStream_new tc c code) = p0 /\
  GetPrediction p0
    = int16_of
        (compute_lpc_prediction
           (replicate (Z.to_nat (lpc_order c) + Z.to_nat (block_size c)) 0,
            lpc_order c)
           (GetLpcCoeffs (ToeplitzLpcEstimator_new c))) /\
  left_context (advance_all p0 vr) = replicate (Z.to_nat (lpc_order c)) 0 /\
  estimator_ (advance_all p0 vr) = ToeplitzLpcEstimator_new c /\
  t_ (advance_all p0 vr) = Z.of_nat (length vr).
Proof.
  intros Hc Hlen p0. pose proof Hc as (Ho & Hb & _).
  destruct (first_block_state c vr Hc Hlen) as (_ & _ & Ht & He & Hl).
  assert (Hbuf : buffer_storage_ p0
    = replicate (Z.to_nat (lpc_order c) + Z.to_nat (block_size c)) 0).
  { simpl. f_equal. lia. }
  repeat split; try done.
  unfold GetPrediction. rewrite Hbuf. unfold buffer_start_, t_mod_. simpl.
  by rewrite Z.rem_0_l, Z.add_0_r by lia.
Qed.
End StreamProperties.


(** ** The small implementation meets the contract *)

Module ToyProperties.
Import Toy.

Lemma run_eq (reqs : list (Z * Z)) : forall q codes,
  @WriteLimited_all coder (q, codes) reqs
  = ((q, codes ++ ((fun rq => (commit q rq.1 rq.2).2) <$> reqs)),
     (fun rq => commit q rq.1 rq.2) <$> reqs).
Proof.
  induction reqs as [|rq reqs IH]; intros q codes.
  - simpl. by rewrite app_nil_r.
  - cbn [WriteLimited_all WriteLimited coder write_limited fst snd].
    rewrite IH. cbn [fmap list_fmap]. by rewrite <- app_assoc.
Qed.

Lemma reads_prefix_app (l rest : list Z) :
  @reads_prefix coder (l ++ rest) l /\
  @after_reads coder (l ++ rest) (length l) = rest.
Proof. induction l as [|x l [IH1 IH2]]; [done|]. simpl. auto. Qed.

Lemma decoder_inverts_any q : @decoder_inverts coder q.
Proof.
  intros reqs _. cbn [TruncatedIntStream_new coder].
  rewrite run_eq. cbn [fst snd Code ReverseTruncatedIntStream_new coder].
  rewrite <- list_fmap_compose.
  set (l := _ <$> reqs).
  destruct (reads_prefix_app l []) as [H1 H2].
  rewrite app_nil_r in H1, H2. split; [exact H1|].
  change ([] ++ l) with l. rewrite H2. done.
Qed.

Lemma commit_is_consistent q (rq : Z * Z) :
  valid_request rq -> commit_consistent rq (commit q rq.1 rq.2).
Proof.
  intros [Hp Hv]. unfold commit_consistent, commit, is_int16 in *.
  cbn [fst snd]. split; [done|].
  set (r0 := if q <=? 1 then _ else _).
  destruct (Z.leb_spec (-32768) (rq.2 + r0)),
    (Z.leb_spec (rq.2 + r0) 32767); simpl; lia.
Qed.

Lemma coder_consistent_any q : @coder_consistent coder q.
Proof.
  intros reqs Hval. cbn [TruncatedIntStream_new coder].
  rewrite run_eq. cbn [snd].
  apply Forall2_fmap_r, Forall_Forall2_diag.
  eapply Forall_impl; [|exact Hval].
  intros rq Hrq. by apply commit_is_consistent.
Qed.

Lemma coder_never_truncates_1 : @coder_never_truncates coder 1.
Proof.
  intros reqs Hval. cbn [TruncatedIntStream_new coder].
  rewrite run_eq. cbn [snd].
  apply list_fmap_ext. intros _ rq _. unfold commit. simpl.
  by destruct (_ && _).
Qed.

Lemma reverse_read_int32 (code : list Z) :
  Forall is_int32 code ->
  forall d residual,
    reverse_read code = (d, Some residual) -> is_int32 residual.
Proof.
  intros Hc d residual. destruct code as [|x code]; [done|].
  intros [= <- <-]. by inversion Hc.
Qed.

Lemma cfg_valid : @LpcConfig_valid estimator cfg.
Proof. unfold LpcConfig_valid. simpl. lia. Qed.

Lemma samples_int16 : Forall is_int16 samples.
Proof. unfold samples, is_int16. repeat constructor; lia. Qed.
End ToyProperties.

(** ** Concrete runs

    [order = 2], [block_size = 4], samples [10; 20; 15; 5; 30; 25; 10; 0],
    with the small implementation of the collaborators. *)

Module Runs.
Import Toy ToyProperties.
#[local] Existing Instance estimator.
#[local] Existing Instance coder.

Ltac by_computation :=
  repeat split; vm_compute; first [reflexivity | discriminate].

(** C4 -- Coefficient lag, on the code.  The encoder that has written
    block 0 (samples 0 to 3) and is about to write sample 4, the first of
    block 1, predicts it with the constructor's coefficients [0; 0] and
    with the left context the constructor left (zeros, while the samples
    before it are 15 and 5): the estimate made from block 0, [1; 0], is
    installed by the [AdvanceLpcState] that follows this prediction, is
    the vector in use for samples 5, 6 and 7, and is still the vector in
    use when the first sample of block 2 is predicted. *)
Theorem first_sample_of_block_predicted_before_estimate :
  let s4 := (write_all (encoder 1) (take 4 samples)).1 in
  let s5 := w_stream (Write s4 30 None) in
  let s8 := (write_all (encoder 1) samples).1 in
  t_ (enc_lpc s4) = 4 /\
  GetLpcCoeffs (ToeplitzLpcEstimator_new cfg) = [0; 0] /\
  GetLpcCoeffs (estimator_ (block_boundary (enc_lpc s4))) = [1; 0] /\
  GetLpcCoeffs (estimator_ (enc_lpc s4)) = [0; 0] /\
  left_context (enc_lpc s4) = [0; 0] /\
  current_block (enc_lpc s4) = [10; 20; 15; 5] /\
  GetPrediction (enc_lpc s4) = 0 /\
  t_ (enc_lpc s5) = 5 /\
  GetLpcCoeffs (estimator_ (enc_lpc s5)) = [1; 0] /\
  GetPrediction (enc_lpc s5) = 30 /\
  t_ (enc_lpc s8) = 8 /\
  estimator_ (enc_lpc s8) = estimator_ (enc_lpc s5) /\
  left_context (enc_lpc s8) = [15; 5] /\
  current_block (enc_lpc s8) = [30; 25; 10; 0].
Proof. by_computation. Qed.

(** C3, as stated, fails: a decoder at the end of its code and a decoder
    whose next residual takes the candidate out of the [int16_t] range
    give the caller the same thing. *)
Lemma Read_failures_indistinguishable :
  let at_end := decoder 1 [] in
  let corrupt := decoder 1 [40000] in
  exhausted at_end /\ out_of_range corrupt /\
  observed (Read at_end 0) = observed (Read corrupt 0).
Proof.
  intros at_end corrupt. split; [reflexivity|]. split; [|reflexivity].
  exists 40000. split; [reflexivity|].
  assert (GetPrediction (dec_lpc corrupt) = 0) as -> by reflexivity.
  unfold is_int32, is_int16. lia.
Qed.

Lemma round_trip_witness :
  let decoder := decoder 1 (code_of 1 samples) in
  LpcConfig_valid cfg /\ Z.of_nat (length samples) <= 2147483647 /\
  Forall is_int16 samples /\
  (read_n (length samples) decoder).2 = samples /\
  exhausted (read_n (length samples) decoder).1 /\
  (forall value,
      observed (Read (read_n (length samples) decoder).1 value)
      = (false, value)) /\
  (forall fuel, (length samples < fuel)%nat ->
      (read_all fuel decoder).1.2 = samples /\
      (read_all fuel decoder).2 = true).
Proof.
  assert (Hlen : Z.of_nat (length samples) <= 2147483647)
    by by_computation.
  split; [exact cfg_valid|]. split; [exact Hlen|].
  split; [exact samples_int16|].
  exact (round_trip (E := estimator) (C := coder) 1 cfg samples cfg_valid
           Hlen samples_int16 coder_never_truncates_1
           (decoder_inverts_any 1)).
Defined.

Lemma lockstep_witness :
  let enc_6 := write_all (encoder 4) (take 6 samples) in
  let dec_6 := read_n 6 (decoder 4 (code_of 4 samples)) in
  Z.of_nat (length samples) <= 2147483647 /\
  (6 <= length samples)%nat /\
  dec_lpc dec_6.1 = enc_lpc enc_6.1 /\
  dec_6.2 = enc_6.2 /\
  enc_6.2 = [8; 20; 12; 4; 28; 28].
Proof.
  intros enc_6 dec_6.
  assert (Hn : (6 <= length samples)%nat) by (simpl; lia).
  assert (Hlen : Z.of_nat (length samples) <= 2147483647)
    by by_computation.
  destruct (lockstep (E := estimator) (C := coder) 4 cfg samples 6
              cfg_valid Hlen samples_int16
              (coder_consistent_any 4) (decoder_inverts_any 4) Hn)
    as (Hlpc & _ & _ & _ & _ & _ & Hvals & _).
  split; [exact Hlen|]. split; [exact Hn|]. split; [exact Hlpc|]. split; [exact Hvals|].
  reflexivity.
Defined.

Lemma Read_false_iff_witness :
  let corrupt := decoder 1 [40000] in
  out_of_range corrupt /\ observed (Read corrupt 7) = (false, 7).
Proof.
  intros corrupt.
  assert (Hout : out_of_range corrupt).
  { exists 40000. split; [reflexivity|].
    assert (GetPrediction (dec_lpc corrupt) = 0) as -> by reflexivity.
    unfold is_int32, is_int16. lia. }
  split; [exact Hout|].
  refine (proj2 (proj2 (Read_false_iff corrupt 7 _)) Hout).
  apply reverse_read_int32. repeat constructor; unfold is_int32; lia.
Defined.

Lemma AdvanceLpcState_at_block_boundary_witness :
  let p4 := enc_lpc (write_all (encoder 1) (take 4 samples)).1 in
  wf p4 /\ t_ p4 < 2147483647 /\
  t_ p4 `mod` block_size (Config_ p4) = 0 /\ t_ p4 <> 0 /\
  AdvanceLpcState p4 30 30 =
    {| Config_ := cfg;
       estimator_ := (cfg, [1; 0]);
       t_ := 5;
       buffer_storage_ := [15; 5; 30; 20; 15; 5];
       residual_ := [30; 20; 15; 5] |}.
Proof.
  intros p4.
  assert (Hwf : wf p4) by by_computation.
  assert (Hmax : t_ p4 < 2147483647) by by_computation.
  assert (Hz : t_ p4 `mod` block_size (Config_ p4) = 0) by reflexivity.
  assert (Hnz : t_ p4 <> 0) by by_computation.
  destruct (AdvanceLpcState_at_block_boundary p4 30 30 Hwf Hmax)
    as [Hboundary _].
  destruct (Hboundary (conj Hz Hnz)) as [Heq _].
  repeat (split; [assumption|]). rewrite Heq. reflexivity.
Defined.

Lemma Read_reconstructs_witness :
  let r := decoder 1 [10; 20] in
  r_ok (Read r 0) = true /\
  exists d residual,
    ReverseTruncatedIntStream_Read (dec_stream r) = (d, Some residual) /\
    r_value (Read r 0) = GetPrediction (dec_lpc r) + residual.
Proof.
  intros r.
  assert (Hok : r_ok (Read r 0) = true) by reflexivity.
  split; [exact Hok|].
  destruct (Read_reconstructs r 0) as (d & residual & Hrd & _ & Hv & _).
  - apply reverse_read_int32. repeat constructor; unfold is_int32; lia.
  - exact Hok.
  - exists d, residual. split; [exact Hrd | exact Hv].
Defined.

Lemma Write_commits_reconstruction_witness :
  let s4 := (write_all (encoder 4) (take 4 samples)).1 in
  is_int16 30 /\
  w_out (Write s4 30 (Some 0)) = Some 28 /\
  enc_lpc (w_stream (Write s4 30 (Some 0)))
  = AdvanceLpcState (enc_lpc s4) 28 28.
Proof.
  intros s4.
  assert (Hv : is_int16 30) by (unfold is_int16; lia).
  destruct (Write_commits_reconstruction s4 30 (Some 0) Hv)
    as (_ & Hs & Ho).
  split; [exact Hv|]. split; [rewrite Ho | rewrite Hs]; reflexivity.
Defined.

Lemma assertion_scope_and_validity_witness :
  let s4 := (write_all (encoder 4) (take 4 samples)).1 in
  let r := decoder 4 [8] in
  Z.of_nat (length samples) <= 2147483647 /\
  samples !! 4%nat = Some 30 /\
  t_mod_ (enc_lpc s4) = 0 /\
  Write_assert s4 30 = true /\ Read_assert r = true.
Proof.
  intros s4 r.
  assert (Hlen : Z.of_nat (length samples) <= 2147483647)
    by by_computation.
  assert (Hn : samples !! 4%nat = Some 30) by reflexivity.
  destruct (assertion_scope_and_validity (E := estimator) (C := coder)
              4 cfg samples 4 30 r cfg_valid Hlen samples_int16
              (coder_consistent_any 4) Hn) as (_ & Hw & Hr).
  - apply reverse_read_int32. repeat constructor; unfold is_int32; lia.
  - split; [exact Hlen|]. split; [exact Hn|]. split; [reflexivity|].
    split; [exact Hw | exact Hr].
Defined.

Lemma Read_failure_leaves_state_witness :
  let at_end := decoder 1 [] in
  let corrupt := decoder 1 [40000] in
  r_ok (Read at_end 7) = false /\
  dec_lpc (r_stream (Read at_end 7)) = dec_lpc at_end /\
  r_value (Read at_end 7) = 7 /\
  r_ok (Read corrupt 7) = false /\
  dec_lpc (r_stream (Read corrupt 7)) = dec_lpc corrupt /\
  r_value (Read corrupt 7) = 7.
Proof.
  intros at_end corrupt.
  assert (H1 : r_ok (Read at_end 7) = false) by reflexivity.
  assert (H2 : r_ok (Read corrupt 7) = false) by reflexivity.
  destruct (Read_failure_leaves_state at_end 7 H1) as [Ha Hb].
  destruct (Read_failure_leaves_state corrupt 7 H2) as [Hc Hd].
  repeat (split; [assumption|]). assumption.
Defined.

Lemma initial_state_witness :
  let vr := [(10, 10); (20, 20); (15, 15); (5, 5)] in
  let p0 := LpcPrediction_new cfg in
  LpcConfig_valid cfg /\
  Z.of_nat (length vr) <= block_size cfg /\
  t_ p0 = 0 /\
  buffer_storage_ p0 = [0; 0; 0; 0; 0; 0] /\
  GetPrediction p0 = 0 /\
  left_context (advance_all p0 vr) = [0; 0] /\
  estimator_ (advance_all p0 vr) = ToeplitzLpcEstimator_new cfg.
Proof.
  intros vr p0.
  assert (Hlen : Z.of_nat (length vr) <= block_size cfg) by by_computation.
  destruct (initial_state (E := estimator) (C := coder) 1 cfg [] vr cfg_valid Hlen)
    as (Ht & Hbuf & _ & _ & Hp & Hl & He & _).
  split; [exact cfg_valid|]. split; [exact Hlen|].
  split; [exact Ht|]. split; [exact Hbuf|].
  split; [exact (eq_trans Hp eq_refl)|]. split; [exact Hl | exact He].
Defined.
End Runs.

(** * Further properties of the prediction state *)

Section DefinedBehaviour.
Context `{E : ToeplitzLpcEstimator}.
Implicit Types (p : LpcPrediction) (c : LpcConfig).

Lemma length_copy_context (start bsize : Z) (n : nat) : forall i buf,
  length (copy_context start bsize n i buf) = length buf.
Proof.
  induction n as [|n IH]; intros i buf; [done|].
  simpl. by rewrite IH, length_store.
Qed.

Lemma copy_context_checked_eq (ord B : Z) (n : nat) : forall (j : nat) buf,
  0 < B -> Z.of_nat j + Z.of_nat n <= ord ->
  Z.of_nat (length buf) = ord + B ->
  copy_context_checked ord B n (Z.of_nat j - ord) buf
  = Some (copy_context ord B n (Z.of_nat j - ord) buf).
Proof.
  induction n as [|n IH]; intros j buf HB Hj Hlen; [done|].
  cbn [copy_context_checked copy_context].
  replace (ord + (Z.of_nat j - ord)) with (Z.of_nat j) by lia.
  replace (ord + B + (Z.of_nat j - ord))
    with (Z.of_nat (j + Z.to_nat B)) by lia.
  replace (Z.of_nat j - ord + 1) with (Z.of_nat (S j) - ord) by lia.
  destruct (lookup_lt_is_Some_2 buf (j + Z.to_nat B)) as [x Hx]; [lia|].
  rewrite (load_lookup _ _ _ Hx), store_insert.
  unfold load_checked, store_checked.
  destruct (Z.leb_spec 0 (Z.of_nat (j + Z.to_nat B))); [|lia].
  rewrite !Nat2Z.id, Hx. cbn [mbind option_bind].
  destruct (Z.leb_spec 0 (Z.of_nat j)); [|lia].
  destruct (Z.ltb_spec (Z.of_nat j) (Z.of_nat (length buf))); [|lia].
  cbn [andb mbind option_bind]. rewrite ?Nat2Z.id.
  apply IH; [done | lia | rewrite length_insert; lia].
Qed.

Lemma store_checked_in_bounds (a : list Z) i v :
  0 <= i < Z.of_nat (length a) -> store_checked a i v = Some (store a i v).
Proof.
  intros Hi. unfold store_checked, store.
  destruct (Z.leb_spec 0 i); [|lia].
  by destruct (Z.ltb_spec i (Z.of_nat (length a))); [|lia].
Qed.

(** X1 -- On a well-formed state whose [t_] is below [INT_MAX],
    [AdvanceLpcState] divides by a non-zero block size, reads and writes
    only inside [buffer_storage_] and [residual_] (in the copy loop too)
    and increments [t_] without overflow; its result is then the one of
    the model used everywhere else. *)
Theorem AdvanceLpcState_defined_on_wf p value residual :
  wf p -> t_ p < 2147483647 ->
  AdvanceLpcState_defined p value residual
  = Some (AdvanceLpcState p value residual).
Proof.
  intros Hwf Hmax. destruct (t_mod_wf p Hwf) as [Hm Hr].
  pose proof Hwf as ((Ho & Hb & Hs) & Ht & Hl1 & Hl2).
  unfold AdvanceLpcState_defined, AdvanceLpcState.
  destruct (Z.eqb_spec (block_size (Config_ p)) 0); [lia|].
  destruct ((t_mod_ p =? 0) && negb (t_ p =? 0)).
  - change (- lpc_order (Config_ p))
      with (Z.of_nat 0 - lpc_order (Config_ p)).
    unfold buffer_start_.
    rewrite copy_context_checked_eq by lia.
    cbn [mbind option_bind block_boundary buffer_storage_ residual_ t_
           Config_ estimator_ buffer_start_].
    unfold buffer_start_.
    rewrite !store_checked_in_bounds
      by (rewrite ?length_copy_context; lia).
    cbn [mbind option_bind].
    destruct (Z.eqb_spec (t_ p) 2147483647); [lia|].
    by rewrite int32_of_id by (unfold is_int32; lia).
  - cbn [mbind option_bind]. unfold buffer_start_.
    rewrite !store_checked_in_bounds by lia. cbn [mbind option_bind].
    destruct (Z.eqb_spec (t_ p) 2147483647); [lia|].
    by rewrite int32_of_id by (unfold is_int32; lia).
Qed.

(** X2 -- On a well-formed state the pointer [GetPrediction] passes lies
    inside [buffer_storage_] with at least [lpc_order] entries in front of
    it; these entries, [buffer_pos[-i]] for [i] from 1 to [lpc_order],
    are the [lpc_order] entries of [prediction_context]. *)
Theorem GetPrediction_pointer_in_buffer p :
  wf p ->
  let buffer_pos := buffer_start_ p + t_mod_ p in
  lpc_order (Config_ p) <= buffer_pos
    < Z.of_nat (length (buffer_storage_ p)) /\
  length (prediction_context p) = Z.to_nat (lpc_order (Config_ p)) /\
  forall i, 1 <= i <= lpc_order (Config_ p) ->
    is_Some (load_checked (buffer_storage_ p) (buffer_pos - i)) /\
    load_checked (buffer_storage_ p) (buffer_pos - i)
    = prediction_context p !! Z.to_nat (lpc_order (Config_ p) - i).
Proof.
  intros Hwf buffer_pos. destruct (t_mod_wf p Hwf) as [_ Hr].
  destruct Hwf as ((Ho & Hb & Hs) & Ht & Hl1 & Hl2).
  unfold buffer_pos, buffer_start_, prediction_context.
  split; [lia|]. split.
  - rewrite length_take, length_drop. lia.
  - intros i Hi. unfold load_checked.
    destruct (Z.leb_spec 0 (lpc_order (Config_ p) + t_mod_ p - i)); [|lia].
    rewrite lookup_take_lt, lookup_drop by lia.
    replace (Z.to_nat (t_mod_ p) + Z.to_nat (lpc_order (Config_ p) - i))%nat
      with (Z.to_nat (lpc_order (Config_ p) + t_mod_ p - i)) by lia.
    split; [|done]. apply lookup_lt_is_Some_2. lia.
Qed.

(** *** What the buffer holds *)

Lemma block_fill_le n B : (0 < B)%nat ->
  (block_fill n B <= B /\ block_fill n B <= n)%nat.
Proof.
  intros HB. destruct n as [|k]; simpl; [lia|].
  pose proof (Nat.mod_upper_bound k B).
  pose proof (Nat.Div0.mod_le k B). lia.
Qed.

Lemma block_fill_boundary n B : (0 < B)%nat ->
  (n `mod` B = 0)%nat -> n <> O -> block_fill n B = B.
Proof.
  intros HB Hm Hn. destruct n as [|k]; [done|]. simpl.
  pose proof (Nat.mod_upper_bound k B ltac:(lia)) as Hk.
  replace (S k) with (k + 1)%nat in Hm by lia.
  rewrite <- Nat.Div0.add_mod_idemp_l in Hm.
  destruct (decide (S (k `mod` B) = B)) as [|Hne]; [done|].
  rewrite Nat.mod_small in Hm by lia. lia.
Qed.

Lemma block_fill_within n B : (0 < B)%nat ->
  ~ ((n `mod` B = 0)%nat /\ n <> O) -> block_fill n B = (n `mod` B)%nat.
Proof.
  intros HB Hnb. destruct n as [|k]; cbn [block_fill];
    [by rewrite Nat.Div0.mod_0_l|].
  pose proof (Nat.mod_upper_bound k B ltac:(lia)) as Hk.
  replace (S k) with (k + 1)%nat in Hnb |- * by lia.
  rewrite <- (Nat.Div0.add_mod_idemp_l k 1 B) in Hnb |- *.
  destruct (decide (k `mod` B + 1 = B)%nat) as [Heq|Hne].
  - rewrite Heq, Nat.Div0.mod_same in Hnb. destruct Hnb. split; [done|lia].
  - rewrite (Nat.mod_small (k `mod` B + 1)) by lia. lia.
Qed.

Lemma history_length c (vr : list (Z * Z)) :
  length (history c vr) = (Z.to_nat (lpc_order c) + length vr)%nat.
Proof.
  unfold history. by rewrite length_app, length_replicate, length_fmap.
Qed.

Lemma history_snoc c (vr : list (Z * Z)) x :
  history c (vr ++ [x]) = history c vr ++ [x.1].
Proof. unfold history. by rewrite fmap_app, app_assoc. Qed.

(** The slot of [t_] on a state reached by [n] advances. *)
Lemma slot_of_length p (n : nat) :
  wf p -> t_ p = Z.of_nat n ->
  Z.to_nat (t_ p `mod` block_size (Config_ p))
  = (n `mod` Z.to_nat (block_size (Config_ p)))%nat /\
  (t_ p `mod` block_size (Config_ p) = 0 /\ t_ p <> 0 <->
   (n `mod` Z.to_nat (block_size (Config_ p)) = 0)%nat /\ n <> O).
Proof.
  intros ((Ho & Hb & _) & _) Ht. rewrite Ht.
  assert (Heq : Z.of_nat n `mod` block_size (Config_ p)
                = Z.of_nat (n `mod` Z.to_nat (block_size (Config_ p)))).
  { rewrite Nat2Z.inj_mod, Z2Nat.id by lia. done. }
  rewrite Heq. split; [lia|]. lia.
Qed.

(** After [n] advances from the constructor, the first [lpc_order +
    block_fill n] buffer entries are the end of the zero-padded history,
    starting [lpc_order] entries before the block of the last sample, and
    the first [block_fill n] residual entries are the residuals of that
    block. *)
Lemma buffer_invariant c (vr : list (Z * Z)) :
  LpcConfig_valid c -> Z.of_nat (length vr) <= 2147483647 ->
  let p := advance_all (LpcPrediction_new c) vr in
  let j := block_fill (length vr) (Z.to_nat (block_size c)) in
  take (Z.to_nat (lpc_order c) + j) (buffer_storage_ p)
  = drop (length vr - j) (history c vr) /\
  take j (residual_ p) = drop (length vr - j) vr.*2.
Proof.
  intros Hc. pose proof Hc as (Ho & Hb & Hs).
  induction vr as [|x vr IH] using rev_ind; intros Hlen p j.
  - subst p j. simpl. unfold history. simpl.
    rewrite Nat.add_0_r, app_nil_r, take_replicate, drop_0.
    split; [|done]. f_equal. lia.
  - rewrite length_app in Hlen. cbn [length] in Hlen.
    destruct IH as [IHb IHr]; [lia|].
    destruct (advance_all_wf (LpcPrediction_new c) vr
                (LpcPrediction_new_wf c Hc)) as (Hq & Hcfg & Ht);
      [simpl; lia|].
    cbn [LpcPrediction_new Config_ t_] in Hcfg, Ht.
    rewrite Z.add_0_l in Ht.
    subst p j. unfold advance_all in *. rewrite fold_left_app.
    cbn [fold_left]. set (q := fold_left _ vr _) in *.
    destruct (slot_of_length q (length vr) Hq Ht) as [Hslot Hbd].
    pose proof Hq as (_ & _ & Hl1 & Hl2). rewrite Hcfg in Hl1, Hl2.
    set (On := Z.to_nat (lpc_order c)) in *.
    set (Bn := Z.to_nat (block_size c)) in *.
    assert (HBn : (0 < Bn)%nat) by lia.
    destruct (block_fill_le (length vr) Bn HBn) as [Hj1 Hj2].
    replace (length (vr ++ [x])) with (S (length vr))
      by (rewrite length_app; simpl; lia).
    cbn [block_fill]. rewrite history_snoc, fmap_app. cbn [fmap list_fmap].
    destruct (decide (t_ q `mod` block_size (Config_ q) = 0 /\ t_ q <> 0))
      as [Hb0|Hnb].
    + destruct Hb0 as [Hz Hnz].
      rewrite AdvanceLpcState_boundary by (done || lia).
      cbn [buffer_storage_ residual_]. rewrite Hz, Hcfg. fold On Bn.
      destruct (proj1 Hbd (conj Hz Hnz)) as [Hm0 Hn0].
      rewrite Hcfg in Hm0. fold Bn in Hm0.
      rewrite (block_fill_boundary _ _ HBn Hm0 Hn0) in IHb, IHr, Hj2.
      rewrite Hm0. change (Z.to_nat 0) with O. rewrite Nat.add_0_r.
      rewrite take_ge in IHb by lia.
      rewrite take_ge in IHr by lia.
      replace (S (length vr) - 1)%nat with (length vr) by lia.
      split.
      * replace (On + 1)%nat with (S On) by lia.
        rewrite (take_S_r _ _ x.1).
        2:{ apply list_lookup_insert_eq.
            rewrite length_app, !length_drop. lia. }
        rewrite take_insert_ge by lia.
        rewrite take_app_length' by (rewrite length_drop; lia).
        rewrite drop_app_le by (rewrite history_length; lia).
        f_equal. rewrite IHb, drop_drop. f_equal. lia.
      * rewrite (take_S_r _ _ x.2).
        2:{ apply list_lookup_insert_eq. lia. }
        rewrite take_0. rewrite drop_app_le by (rewrite length_fmap; lia).
        rewrite drop_ge by (rewrite length_fmap; lia). done.
    + rewrite AdvanceLpcState_within_block by (done || lia).
      cbn [buffer_storage_ residual_]. rewrite Hslot, Hcfg. fold On Bn.
      assert (Hnb' : ~ ((length vr `mod` Bn = 0)%nat /\ length vr <> O)).
      { intros H. apply Hnb, Hbd. by rewrite Hcfg. }
      pose proof (block_fill_within _ _ HBn Hnb') as Hj.
      rewrite Hj in IHb, IHr, Hj2.
      pose proof (Nat.mod_upper_bound (length vr) Bn ltac:(lia)) as Hup.
      set (m := (length vr `mod` Bn)%nat) in *.
      replace (S (length vr) - S m)%nat with (length vr - m)%nat by lia.
      split.
      * replace (On + S m)%nat with (S (On + m)) by lia.
        rewrite (take_S_r _ _ x.1).
        2:{ apply list_lookup_insert_eq. lia. }
        rewrite take_insert_ge by lia.
        rewrite drop_app_le by (rewrite history_length; lia).
        by rewrite IHb.
      * rewrite (take_S_r _ _ x.2).
        2:{ apply list_lookup_insert_eq. lia. }
        rewrite take_insert_ge by lia.
        rewrite drop_app_le by (rewrite length_fmap; lia).
        by rewrite IHr.
Qed.

(** The facts about the state after [vr] that the next theorems share. *)
Lemma after_advances c (vr : list (Z * Z)) :
  LpcConfig_valid c -> Z.of_nat (length vr) <= 2147483647 ->
  let p := advance_all (LpcPrediction_new c) vr in
  wf p /\ Config_ p = c /\ t_ p = Z.of_nat (length vr) /\
  Z.to_nat (t_mod_ p) = (length vr `mod` Z.to_nat (block_size c))%nat /\
  (Z.of_nat (length vr) `mod` block_size c = 0 /\ vr <> [] <->
   (length vr `mod` Z.to_nat (block_size c) = 0)%nat /\ length vr <> O).
Proof.
  intros Hc Hlen p.
  destruct (advance_all_wf (LpcPrediction_new c) vr
              (LpcPrediction_new_wf c Hc)) as (Hq & Hcfg & Ht);
    [simpl; lia|].
  cbn [LpcPrediction_new Config_ t_] in Hcfg, Ht. rewrite Z.add_0_l in Ht.
  fold p in Hq, Hcfg, Ht.
  destruct (slot_of_length p (length vr) Hq Ht) as [Hslot Hbd].
  destruct (t_mod_wf p Hq) as [Hm _].
  rewrite Hcfg, Ht in Hslot, Hbd.
  split; [done|]. split; [done|]. split; [done|].
  split; [by rewrite Hm, Hcfg, Ht|].
  rewrite <- Hbd. split; intros [H0 Hne]; (split; [done|]).
  - destruct vr; [done | simpl; lia].
  - intros ->. done.
Qed.

(** X3 -- At every position that is not the first of a later block (the
    start of the stream included), the [lpc_order] buffer entries in
    front of the pointer [GetPrediction] passes are the [lpc_order] most
    recent values advanced over, with the constructor's zeros before the
    first sample. *)
Theorem prediction_context_is_recent_history c (vr : list (Z * Z)) :
  LpcConfig_valid c -> Z.of_nat (length vr) <= 2147483647 ->
  ~ (Z.of_nat (length vr) `mod` block_size c = 0 /\ vr <> []) ->
  prediction_context (advance_all (LpcPrediction_new c) vr)
  = drop (length vr) (history c vr).
Proof.
  intros Hc Hlen Hnb. pose proof Hc as (Ho & Hb & _).
  destruct (after_advances c vr Hc Hlen) as (Hq & Hcfg & Ht & Hslot & Hbd).
  destruct (buffer_invariant c vr Hc Hlen) as [Hbuf _].
  assert (HBn : (0 < Z.to_nat (block_size c))%nat) by lia.
  destruct (block_fill_le (length vr) _ HBn) as [_ Hj2].
  rewrite block_fill_within in Hbuf, Hj2
    by (done || (intros H; apply Hnb, Hbd, H)).
  unfold prediction_context. rewrite Hcfg, Hslot.
  rewrite take_drop_commute, (Nat.add_comm _ (Z.to_nat (lpc_order c))).
  rewrite Hbuf, drop_drop. f_equal. lia.
Qed.

(** X4 -- At the first position of every block but the first, the
    [lpc_order] entries in front of the pointer [GetPrediction] passes are
    not the most recent values: they are the ones that were the most
    recent [block_size] samples earlier, at the start of the block just
    completed. *)
Theorem prediction_context_at_block_start c (vr : list (Z * Z)) :
  LpcConfig_valid c -> Z.of_nat (length vr) <= 2147483647 ->
  Z.of_nat (length vr) `mod` block_size c = 0 -> vr <> [] ->
  let earlier := (length vr - Z.to_nat (block_size c))%nat in
  (Z.to_nat (block_size c) <= length vr)%nat /\
  prediction_context (advance_all (LpcPrediction_new c) vr)
  = take (Z.to_nat (lpc_order c)) (drop earlier (history c vr)) /\
  prediction_context (advance_all (LpcPrediction_new c) vr)
  = drop earlier (history c (take earlier vr)).
Proof.
  intros Hc Hlen Hz Hne earlier. subst earlier.
  pose proof Hc as (Ho & Hb & _).
  destruct (after_advances c vr Hc Hlen) as (Hq & Hcfg & Ht & Hslot & Hbd).
  destruct (buffer_invariant c vr Hc Hlen) as [Hbuf _].
  assert (HBn : (0 < Z.to_nat (block_size c))%nat) by lia.
  destruct (block_fill_le (length vr) _ HBn) as [_ Hj2].
  destruct (proj1 Hbd (conj Hz Hne)) as [Hm0 Hn0].
  rewrite (block_fill_boundary _ _ HBn Hm0 Hn0) in Hbuf, Hj2.
  assert (Hctx : prediction_context (advance_all (LpcPrediction_new c) vr)
                 = take (Z.to_nat (lpc_order c))
                     (drop (length vr - Z.to_nat (block_size c))
                        (history c vr))).
  { unfold prediction_context. rewrite Hcfg, Hslot, Hm0, drop_0.
    rewrite <- Hbuf, take_take. f_equal. lia. }
  split; [lia|]. split; [done|]. rewrite Hctx.
  unfold history. rewrite fmap_take, take_drop_commute. f_equal.
  rewrite take_app, length_replicate, take_replicate.
  f_equal; [f_equal; lia | f_equal; lia].
Qed.

(** X5 -- What the estimator is given.  The advance over the first sample
    of a block (not the first block) calls [AcceptBlock] with the
    [block_size] values and the [block_size] residuals of the block just
    completed; the [lpc_order] entries in front of them are the most
    recent values, those that end the completed block, not those that
    preceded it. *)
Theorem AcceptBlock_receives_completed_block c (vr : list (Z * Z)) x :
  LpcConfig_valid c -> Z.of_nat (length vr) < 2147483647 ->
  Z.of_nat (length vr) `mod` block_size c = 0 -> vr <> [] ->
  let block := (length vr - Z.to_nat (block_size c))%nat in
  length (drop block vr) = Z.to_nat (block_size c) /\
  estimator_ (advance_all (LpcPrediction_new c) (vr ++ [x]))
  = AcceptBlock (estimator_ (advance_all (LpcPrediction_new c) vr))
      (drop (length vr) (history c vr) ++ (drop block vr).*1, lpc_order c)
      (drop block vr).*2.
Proof.
  intros Hc Hlen Hz Hne block. subst block.
  pose proof Hc as (Ho & Hb & _).
  destruct (after_advances c vr Hc ltac:(lia))
    as (Hq & Hcfg & Ht & Hslot & Hbd).
  destruct (buffer_invariant c vr Hc ltac:(lia)) as [Hbuf Hres].
  assert (HBn : (0 < Z.to_nat (block_size c))%nat) by lia.
  destruct (block_fill_le (length vr) _ HBn) as [_ Hj2].
  destruct (proj1 Hbd (conj Hz Hne)) as [Hm0 Hn0].
  rewrite (block_fill_boundary _ _ HBn Hm0 Hn0) in Hbuf, Hres, Hj2.
  pose proof Hq as (_ & _ & Hl1 & Hl2). rewrite Hcfg in Hl1, Hl2.
  rewrite take_ge in Hbuf by lia. rewrite take_ge in Hres by lia.
  split; [rewrite length_drop; lia|].
  unfold advance_all in *. rewrite fold_left_app. cbn [fold_left].
  set (q := fold_left _ vr _) in *.
  rewrite AdvanceLpcState_boundary by (rewrite ?Hcfg, ?Ht; done || lia).
  cbn [estimator_]. rewrite Hcfg, Hbuf, Hres, !drop_drop, !fmap_drop.
  replace (length vr - Z.to_nat (block_size c) + Z.to_nat (block_size c))%nat
    with (length vr) by lia.
  do 3 f_equal. unfold history.
  rewrite drop_app_ge by (rewrite length_replicate; lia).
  rewrite length_replicate. f_equal. lia.
Qed.

(** X6 -- Advances that stay inside one block (from the start of the
    stream or from a position that is not a block start, up to the end of
    that block) leave the left-context slots and the estimator, hence the
    coefficients, as they were. *)
Theorem block_interior_keeps_context p (vr : list (Z * Z)) :
  wf p -> t_ p + Z.of_nat (length vr) <= 2147483647 ->
  t_ p = 0 \/ 0 < t_ p `mod` block_size (Config_ p) ->
  t_ p `mod` block_size (Config_ p) + Z.of_nat (length vr)
    <= block_size (Config_ p) ->
  estimator_ (advance_all p vr) = estimator_ p /\
  GetLpcCoeffs (estimator_ (advance_all p vr)) = GetLpcCoeffs (estimator_ p)
  /\ left_context (advance_all p vr) = left_context p.
Proof.
  intros Hwf Hmax Hpos Hlen.
  cut (estimator_ (advance_all p vr) = estimator_ p /\
       left_context (advance_all p vr) = left_context p).
  { intros [-> ->]. done. }
  revert Hmax Hlen. induction vr as [|x vr IH] using rev_ind;
    intros Hmax Hlen; [done|].
  rewrite length_app in Hmax, Hlen. cbn [length] in Hmax, Hlen.
  destruct IH as [IHe IHl]; [lia | lia |].
  destruct (advance_all_wf p vr Hwf) as (Hq & Hc & Ht); [lia|].
  pose proof Hwf as ((_ & Hb & _) & Ht0 & _).
  unfold advance_all in *. rewrite fold_left_app. cbn [fold_left].
  set (q := fold_left _ vr p) in *.
  rewrite AdvanceLpcState_within_block; [| done | lia |].
  - unfold left_context in *. cbn [estimator_ buffer_storage_ Config_].
    split; [done|]. rewrite take_insert_ge by lia. done.
  - rewrite Hc, Ht. intros [Hz Hnz].
    destruct Hpos as [H0|Hp].
    + rewrite H0, Z.mod_0_l in Hlen by lia. rewrite H0 in Hz.
      rewrite Z.mod_small in Hz by lia. lia.
    + rewrite <- Z.add_mod_idemp_l in Hz by lia.
      rewrite Z.mod_small in Hz by lia. lia.
Qed.
End DefinedBehaviour.

(** * Further properties of the streams *)

Section StreamCoverage.
Context `{E : ToeplitzLpcEstimator} `{C : ResidualCoder}.
Implicit Types (s : LpcStream) (r : ReverseLpcStream).

Lemma consistent_commits_int16 (rqs cms : list (Z * Z)) :
  Forall2 commit_consistent rqs cms -> Forall is_int16 cms.*1.
Proof.
  induction 1 as [|rq cm rqs cms [_ Hin] _ IH]; [constructor|].
  cbn [fmap list_fmap]. by constructor.
Qed.

(** X7 -- Round trip of the reconstruction.  For a valid configuration,
    at most [INT_MAX] samples and any coder, truncating or
    not, whose commits are consistent and whose decoder side inverts it:
    reading the code of a run gives, one value per successful [Read],
    exactly the values [Write] gave back through
    [decompressed_value_out], each of them an [int16_t], and the next
    [Read] returns [false] with the residual coder at its end. *)
Theorem reconstruction_round_trip tc c samples :
  LpcConfig_valid c -> Z.of_nat (length samples) <= 2147483647 ->
  Forall is_int16 samples ->
  coder_consistent tc -> decoder_inverts tc ->
  let written := write_all (LpcStream_new tc c) samples in
  let decoder := ReverseLpcStream_new tc c (Code (enc_stream written.1)) in
  length written.2 = length samples /\
  Forall is_int16 written.2 /\
  (read_n (length samples) decoder).2 = written.2 /\
  exhausted (read_n (length samples) decoder).1 /\
  (forall fuel, (length samples < fuel)%nat ->
      (read_all fuel decoder).1.2 = written.2 /\
      (read_all fuel decoder).2 = true).
Proof.
  intros _ _ Hs Hcons Hinv written decoder.
  destruct (run_contract tc c samples Hs Hinv)
    as (Hval & Hrun & Hrd & Hend).
  specialize (Hcons _ Hval). rewrite Hrun in Hcons.
  pose proof (read_n_write_all samples (LpcStream_new tc c)
                (ReverseTruncatedIntStream_new tc
                   (Code (enc_stream written.1))) Hs Hcons Hrd) as Hn.
  change (read_n (length samples) decoder =
            ({| dec_stream :=
                  after_reads
                    (ReverseTruncatedIntStream_new tc
                       (Code (enc_stream written.1))) (length samples);
                dec_lpc := enc_lpc written.1 |}, written.2)) in Hn.
  rewrite length_fmap, length_write_commits in Hend.
  assert (Hlen : length written.2 = length samples).
  { unfold written.
    by rewrite write_all_values, length_fmap, length_write_commits. }
  assert (Hex : exhausted (read_n (length samples) decoder).1)
    by (by rewrite Hn).
  assert (Hfalse : r_ok (Read (read_n (length samples) decoder).1 0)
                   = false).
  { erewrite Read_None; [done|]. unfold exhausted in Hex.
    rewrite <- Hex. apply surjective_pairing. }
  split; [done|]. split.
  { unfold written. rewrite write_all_values.
    by eapply consistent_commits_int16. }
  split; [by rewrite Hn|]. split; [done|].
  intros fuel Hfuel.
  rewrite (read_all_of_read_n (length samples) decoder
             (read_n (length samples) decoder).1 written.2 fuel);
    [done | by rewrite Hn | done | done | done].
Qed.

(** X8 -- The lines [Write] prints.  For an [int16_t] sample, [Write]
    prints nothing exactly when the coder committed the sample and its
    residual unchanged; and when the commit is consistent
    ([decompressed_value = prediction + decompressed_residual]) it prints
    either nothing or both lines, the residual line first. *)
Theorem Write_diagnostics s value out :
  is_int16 value ->
  let prediction := GetPrediction (enc_lpc s) in
  let residual := value - prediction in
  let committed :=
    (WriteLimited (enc_stream s) residual prediction).2 in
  (w_cout (Write s value out) = [] <-> committed = (value, residual)) /\
  (committed.1 = prediction + committed.2 ->
   w_cout (Write s value out) = [] \/
   w_cout (Write s value out)
   = [residual_mismatch residual committed.2;
      value_mismatch value committed.1]).
Proof.
  intros Hv prediction residual committed.
  destruct (residual_exact value prediction Hv (GetPrediction_is_int16 _))
    as [_ Hid].
  rewrite Write_eq. cbn [w_cout]. fold prediction. rewrite Hid.
  fold residual. fold committed. destruct committed as [dv dr].
  cbn [fst snd].
  destruct (Z.eqb_spec dr residual), (Z.eqb_spec dv value); cbn [app].
  - split; [split; [congruence | done] | by left].
  - split; [split; [done | congruence] | intros ->; lia].
  - split; [split; [done | congruence] | intros ->; lia].
  - split; [split; [done | congruence] | by right].
Qed.

(** X9 -- The encoder's prediction state keeps its shape: after writing
    the samples (any samples, any coder), the configuration is the one
    given to the constructor, [buffer_storage_] still has [lpc_order +
    block_size] entries and [residual_] still has [block_size], and [t_]
    is the number of samples written. *)
Theorem write_all_counts_samples tc c samples :
  LpcConfig_valid c -> Z.of_nat (length samples) <= 2147483647 ->
  let p := enc_lpc (write_all (LpcStream_new tc c) samples).1 in
  Config_ p = c /\
  t_ p = Z.of_nat (length samples) /\
  Z.of_nat (length (buffer_storage_ p)) = lpc_order c + block_size c /\
  Z.of_nat (length (residual_ p)) = block_size c.
Proof.
  intros Hc Hlen p. unfold p. rewrite write_all_advance.
  destruct (advance_all_wf (LpcPrediction_new c)
              (write_commits (LpcStream_new tc c) samples)
              (LpcPrediction_new_wf c Hc)) as (Hwf & Hcfg & Ht).
  { rewrite length_write_commits. simpl. lia. }
  cbn [LpcStream_new enc_lpc].
  rewrite length_write_commits in Ht. cbn [LpcPrediction_new t_] in Ht.
  cbn [LpcPrediction_new Config_] in Hcfg.
  destruct Hwf as (_ & _ & Hl1 & Hl2). rewrite Hcfg in Hl1, Hl2.
  repeat split; [done | lia | done | done].
Qed.

Lemma Read_ok_inv r value :
  r_ok (Read r value) = true ->
  is_int16 (r_value (Read r value)) /\
  exists residual,
    dec_lpc (r_stream (Read r value))
    = AdvanceLpcState (dec_lpc r) (r_value (Read r value)) residual.
Proof.
  unfold Read.
  destruct (ReverseTruncatedIntStream_Read (dec_stream r)) as [d [x|]];
    [|done].
  destruct (negb _); [done|]. cbn. intros _.
  split; [apply int16_of_is_int16 | by exists x].
Qed.

Lemma Read_fail_inv r value :
  r_ok (Read r value) = false ->
  dec_lpc (r_stream (Read r value)) = dec_lpc r.
Proof.
  unfold Read.
  destruct (ReverseTruncatedIntStream_Read (dec_stream r)) as [d [x|]];
    [|done].
  by destruct (negb _).
Qed.

(** X10 -- The decoder's prediction state counts the values delivered:
    after up to [n] calls of [Read] that stop at the first [false], [t_]
    has grown by the number of values returned (a failed [Read] does not
    count), every value returned is an [int16_t], and the buffers keep
    their sizes. *)
Theorem read_n_counts_values n : forall r,
  wf (dec_lpc r) -> t_ (dec_lpc r) + Z.of_nat n <= 2147483647 ->
  let res := read_n n r in
  wf (dec_lpc res.1) /\
  Config_ (dec_lpc res.1) = Config_ (dec_lpc r) /\
  t_ (dec_lpc res.1) = t_ (dec_lpc r) + Z.of_nat (length res.2) /\
  (length res.2 <= n)%nat /\
  Forall is_int16 res.2.
Proof.
  induction n as [|n IH]; intros r Hwf Hmax res; subst res.
  - cbn. repeat split; try done; [apply Hwf.. | lia].
  - rewrite read_n_S. destruct (r_ok (Read r 0)) eqn:Hok.
    + destruct (Read_ok_inv r 0 Hok) as (Hin & residual & Hadv).
      pose proof (AdvanceLpcState_wf (dec_lpc r) (r_value (Read r 0))
                    residual Hwf ltac:(lia)) as Hwf'.
      destruct (advance_all_wf (dec_lpc r) [(r_value (Read r 0), residual)]
                  Hwf ltac:(simpl; lia)) as (_ & Hcfg & Ht).
      cbn [advance_all fold_left fst snd length] in Hcfg, Ht.
      rewrite <- Hadv in Hwf', Hcfg, Ht.
      destruct (IH (r_stream (Read r 0)) Hwf' ltac:(lia))
        as (H1 & H2 & H3 & H4 & H5).
      cbn [fst snd length].
      split; [done|]. split; [congruence|].
      split; [lia|]. split; [lia|]. by constructor.
    + cbn [fst snd length]. rewrite (Read_fail_inv r 0 Hok).
      split; [done|]. split; [done|]. split; [lia|]. split; [lia|].
      constructor.
Qed.
End StreamCoverage.

(** ** More concrete runs *)

Module MoreRuns.
Import Toy ToyProperties.
#[local] Existing Instance estimator.
#[local] Existing Instance coder.

Ltac by_computation :=
  repeat split; vm_compute; first [reflexivity | discriminate].

Lemma AdvanceLpcState_defined_on_wf_witness :
  let p4 := enc_lpc (write_all (encoder 1) (take 4 samples)).1 in
  wf p4 /\ t_ p4 < 2147483647 /\
  AdvanceLpcState_defined p4 30 30 = Some (AdvanceLpcState p4 30 30).
Proof.
  intros p4.
  assert (Hwf : wf p4) by by_computation.
  assert (Hmax : t_ p4 < 2147483647) by by_computation.
  split; [exact Hwf|]. split; [exact Hmax|].
  exact (AdvanceLpcState_defined_on_wf p4 30 30 Hwf Hmax).
Defined.

Lemma GetPrediction_pointer_in_buffer_witness :
  let p5 := enc_lpc (write_all (encoder 1) (take 5 samples)).1 in
  wf p5 /\
  prediction_context p5 = [5; 30] /\
  load_checked (buffer_storage_ p5) (buffer_start_ p5 + t_mod_ p5 - 1)
  = prediction_context p5 !! 1%nat.
Proof.
  intros p5.
  assert (Hwf : wf p5) by by_computation.
  destruct (GetPrediction_pointer_in_buffer p5 Hwf) as (_ & _ & Hctx).
  split; [exact Hwf|]. split; [reflexivity|].
  destruct (Hctx 1) as [_ Heq]; [by_computation|]. exact Heq.
Defined.

Lemma prediction_context_is_recent_history_witness :
  let vr := [(10, 10); (20, 20); (15, 15)] in
  LpcConfig_valid cfg /\
  prediction_context (advance_all (LpcPrediction_new cfg) vr) = [20; 15].
Proof.
  intros vr. split; [exact cfg_valid|].
  refine (eq_trans
            (prediction_context_is_recent_history (E := estimator)
               cfg vr cfg_valid _ _) eq_refl).
  - by_computation.
  - intros [Hz _]. revert Hz. vm_compute. discriminate.
Defined.

Lemma prediction_context_at_block_start_witness :
  let vr := [(10, 10); (20, 20); (15, 15); (5, 5)] in
  LpcConfig_valid cfg /\
  Z.of_nat (length vr) `mod` block_size cfg = 0 /\
  prediction_context (advance_all (LpcPrediction_new cfg) vr) = [0; 0] /\
  drop (length vr) (history cfg vr) = [15; 5].
Proof.
  intros vr.
  assert (Hz : Z.of_nat (length vr) `mod` block_size cfg = 0) by reflexivity.
  assert (Hne : vr <> []) by discriminate.
  destruct (prediction_context_at_block_start (E := estimator) cfg vr
              cfg_valid ltac:(by_computation) Hz Hne) as (_ & Hctx & _).
  split; [exact cfg_valid|]. split; [exact Hz|].
  split; [exact (eq_trans Hctx eq_refl) | reflexivity].
Defined.

Lemma AcceptBlock_receives_completed_block_witness :
  let vr := [(10, 10); (20, 20); (15, 15); (5, 5)] in
  LpcConfig_valid cfg /\
  estimator_ (advance_all (LpcPrediction_new cfg) (vr ++ [(30, 30)]))
  = AcceptBlock (estimator_ (advance_all (LpcPrediction_new cfg) vr))
      ([15; 5; 10; 20; 15; 5], 2) [10; 20; 15; 5].
Proof.
  intros vr.
  assert (Hz : Z.of_nat (length vr) `mod` block_size cfg = 0) by reflexivity.
  assert (Hne : vr <> []) by discriminate.
  destruct (AcceptBlock_receives_completed_block (E := estimator) cfg vr
              (30, 30) cfg_valid ltac:(by_computation) Hz Hne)
    as [_ Hest].
  split; [exact cfg_valid|]. exact (eq_trans Hest eq_refl).
Defined.

Lemma block_interior_keeps_context_witness :
  let p5 := enc_lpc (write_all (encoder 1) (take 5 samples)).1 in
  let vr := [(25, -5); (10, -15); (0, -10)] in
  wf p5 /\
  0 < t_ p5 `mod` block_size (Config_ p5) /\
  estimator_ (advance_all p5 vr) = estimator_ p5 /\
  left_context (advance_all p5 vr) = left_context p5.
Proof.
  intros p5 vr.
  assert (Hwf : wf p5) by by_computation.
  assert (Hpos : 0 < t_ p5 `mod` block_size (Config_ p5)) by reflexivity.
  destruct (block_interior_keeps_context p5 vr Hwf
              ltac:(by_computation) (or_intror Hpos) ltac:(by_computation))
    as (He & _ & Hl).
  split; [exact Hwf|]. split; [exact Hpos|]. split; [exact He | exact Hl].
Defined.

Lemma reconstruction_round_trip_witness :
  let written := write_all (encoder 4) samples in
  let decoder := decoder 4 (code_of 4 samples) in
  LpcConfig_valid cfg /\ Z.of_nat (length samples) <= 2147483647 /\
  Forall is_int16 samples /\
  written.2 = [8; 20; 12; 4; 28; 28; 12; 0] /\
  (read_n (length samples) decoder).2 = written.2 /\
  exhausted (read_n (length samples) decoder).1.
Proof.
  intros written decoder.
  assert (Hlen : Z.of_nat (length samples) <= 2147483647)
    by by_computation.
  destruct (reconstruction_round_trip (E := estimator) (C := coder)
              4 cfg samples cfg_valid Hlen samples_int16
              (coder_consistent_any 4)
              (decoder_inverts_any 4)) as (_ & _ & Hvals & Hend & _).
  split; [exact cfg_valid|]. split; [exact Hlen|].
  split; [exact samples_int16|]. split; [reflexivity|].
  split; [exact Hvals | exact Hend].
Defined.

Lemma Write_diagnostics_witness :
  let s4 := (write_all (encoder 4) (take 4 samples)).1 in
  is_int16 30 /\
  w_cout (Write s4 30 None)
  = [residual_mismatch 30 28; value_mismatch 30 28].
Proof.
  intros s4.
  assert (Hv : is_int16 30) by (unfold is_int16; lia).
  destruct (Write_diagnostics s4 30 None Hv) as [_ Hboth].
  split; [exact Hv|].
  destruct Hboth as [Hnone|Hlines]; [reflexivity | | exact Hlines].
  revert Hnone. vm_compute. discriminate.
Defined.

Lemma write_all_counts_samples_witness :
  let p := enc_lpc (write_all (encoder 4) samples).1 in
  LpcConfig_valid cfg /\ Config_ p = cfg /\ t_ p = 8 /\
  Z.of_nat (length (buffer_storage_ p)) = 6 /\
  Z.of_nat (length (residual_ p)) = 4.
Proof.
  intros p. split; [exact cfg_valid|].
  exact (write_all_counts_samples (E := estimator) (C := coder)
           4 cfg samples cfg_valid ltac:(by_computation)).
Defined.

Lemma read_n_counts_values_witness :
  let r := decoder 1 [10; 20; 40000; 5] in
  wf (dec_lpc r) /\
  (read_n 4 r).2 = [10; 20] /\
  t_ (dec_lpc (read_n 4 r).1) = 2 /\
  Forall is_int16 (read_n 4 r).2.
Proof.
  intros r.
  assert (Hwf : wf (dec_lpc r)) by by_computation.
  destruct (read_n_counts_values 4 r Hwf ltac:(by_computation))
    as (_ & _ & Ht & _ & Hin).
  split; [exact Hwf|]. split; [reflexivity|].
  split; [exact (eq_trans Ht eq_refl) | exact Hin].
Defined.
End MoreRuns.
